(** * Session registry of the Fastify adapters for the Streamable HTTP transport

    Sources embedded here:
    - [src/server/fastify.ts]: [registerMcpServer] (POST, GET and DELETE
      handlers, [onClose] hook, [handleFastifyRequest]);
    - the second adapter file (src/unnamed/part_002): [registerMcpRoutes]
      (POST handler, [handleSessionRequest]) and [createStatelessMcpHandler].

    Conventions of the embedding:
    - the table [Record<string, StreamableHTTPServerTransport>] is a
      [gmap string nat]; a value is a reference (an index into the heap of
      the transports constructed so far).  The table is an object literal:
      a read [table[k]] finds the own property [k] or, failing that, the
      property every object inherits from [Object.prototype] under that name
      ([property]).  One write is outside the model:
      [table["__proto__"] = t] replaces the prototype of the table instead of
      adding a property.  The statements about what a table holds and answers
      carry the hypothesis [never_proto]: the generator does not return that
      name;
    - a header of type [string | undefined] is an [option string]; JavaScript
      truthiness of such a value is [truthy];
    - a generator [() => string] is the sequence of its results: the [n]-th
      call returns [g n], and the world counts the calls made;
    - what the embedding cannot compute (whether a collaborator throws, what
      the transport writes on the socket) is an argument of the handler. *)

From stdpp Require Import base option list sorting gmap strings pretty.
From Stdlib Require Import ZArith Lia.

Open Scope string_scope.

(** ** JavaScript values used by the handlers *)

(** A string is truthy unless it is empty. *)
Definition truthy_string (s : string) : bool :=
  match s with
  | EmptyString => false
  | String _ _ => true
  end.

(** [string | undefined]: [undefined] is falsy. *)
Definition truthy (h : option string) : bool :=
  match h with
  | Some s => truthy_string s
  | None => false
  end.

(** The request body, as far as the handlers look at it.  [types.js] is not
    among the sources: the body is kept as what [isInitializeRequest]
    answers on it. *)
Inductive Body :=
  | InitializeMessage
  | OtherMessage.

Definition isInitializeRequest (b : Body) : bool :=
  match b with
  | InitializeMessage => true
  | OtherMessage => false
  end.

(** ** The HTTP reply *)

Inductive Payload :=
  | NoPayload
  | JsonRpcError (code : Z) (message : string)
      (* {jsonrpc:"2.0", error:{code, message}, id:null} *)
  | PlainText (text : string).

Record Reply := mkReply {
  statusLine : option nat;      (* status written on the socket, once the head is out *)
  eventStream : bool;           (* the head carries Content-Type: text/event-stream *)
  sessionHeader : option string;(* the mcp-session-id header of the head *)
  payload : Payload;            (* body given to reply.send *)
  statusCode : nat;             (* raw.statusCode, used when the head is implicit *)
  writableEnded : bool;         (* raw.writableEnded *)
  hijacked : bool               (* reply.hijack() was called *)
}.

Definition fresh_reply : Reply :=
  mkReply None false None NoPayload 200 false false.

(** Fastify's [reply.sent]. *)
Definition sent (r : Reply) : bool := hijacked r || writableEnded r.

(** [reply.code(c).send(p)] (also [reply.status(c).send(p)]).  Once the head
    is on the socket nothing can replace it. *)
Definition reply_send (c : nat) (p : Payload) (r : Reply) : Reply :=
  match statusLine r with
  | Some _ => r
  | None => mkReply (Some c) false (sessionHeader r) p c true (hijacked r)
  end.

(** [raw.writeHead(status, headers)]. *)
Definition raw_writeHead (status : nat) (sse : bool) (sid : option string)
    (r : Reply) : Reply :=
  match statusLine r with
  | Some _ => r
  | None => mkReply (Some status) sse sid (payload r) status
                    (writableEnded r) (hijacked r)
  end.

(** [raw.statusCode = c]. *)
Definition raw_set_statusCode (c : nat) (r : Reply) : Reply :=
  mkReply (statusLine r) (eventStream r) (sessionHeader r) (payload r) c
          (writableEnded r) (hijacked r).

(** [raw.end()]: an implicit head uses [raw.statusCode]. *)
Definition raw_end (r : Reply) : Reply :=
  mkReply (Some (default (statusCode r) (statusLine r))) (eventStream r)
          (sessionHeader r) (payload r) (statusCode r) true (hijacked r).

(** [reply.hijack()]. *)
Definition reply_hijack (r : Reply) : Reply :=
  mkReply (statusLine r) (eventStream r) (sessionHeader r) (payload r)
          (statusCode r) (writableEnded r) true.

(** The envelopes the adapters build. *)
Definition no_valid_session : Payload :=
  JsonRpcError (-32000) "Bad Request: No valid session ID provided".

Definition internal_error : Payload :=
  JsonRpcError (-32603) "Internal server error".

Definition stateless_refusal : Payload :=
  JsonRpcError (-32000) "Method not allowed in stateless mode".

(** ** Transports and the world *)

Inductive TransportState := Uninitialized | Active | Closed.

Record Transport := mkTransport {
  sessionId : option string;
  state : TransportState
}.

Record World := mkWorld {
  transportMap : gmap string nat;  (* the table of the registry *)
  heap : list Transport;           (* every transport constructed so far *)
  issued : nat;                    (* calls made to the identifier generator *)
  closeLog : list nat;             (* transports close() was called on, latest first *)
  handleLog : list nat             (* transports a request was handed to, latest first *)
}.

Definition initial : World := mkWorld ∅ [] 0 [] [].

Definition with_map (f : gmap string nat → gmap string nat) (w : World) : World :=
  mkWorld (f (transportMap w)) (heap w) (issued w) (closeLog w) (handleLog w).

Definition with_heap (f : list Transport → list Transport) (w : World) : World :=
  mkWorld (transportMap w) (f (heap w)) (issued w) (closeLog w) (handleLog w).

Definition count_issue (w : World) : World :=
  mkWorld (transportMap w) (heap w) (S (issued w)) (closeLog w) (handleLog w).

Definition log_close (t : nat) (w : World) : World :=
  mkWorld (transportMap w) (heap w) (issued w) (t :: closeLog w) (handleLog w).

Definition log_handle (t : nat) (w : World) : World :=
  mkWorld (transportMap w) (heap w) (issued w) (closeLog w) (t :: handleLog w).

(** [new StreamableHTTPServerTransport(...)]: the reference of the new object
    and the world that holds it. *)
Definition new_transport (w : World) : nat * World :=
  (length (heap w), with_heap (λ h, (h ++ [mkTransport None Uninitialized])%list) w).

(** [transport.sessionId]. *)
Definition sessionId_of (w : World) (t : nat) : option string :=
  heap w !! t ≫= sessionId.

Definition state_of (w : World) (t : nat) : option TransportState :=
  state <$> heap w !! t.

Definition set_state (t : nat) (s : TransportState) (w : World) : World :=
  with_heap (alter (λ tr, mkTransport (sessionId tr) s) t) w.

Definition set_sessionId (t : nat) (sid : string) (w : World) : World :=
  with_heap (alter (λ tr, mkTransport (Some sid) (state tr)) t) w.

(** The callbacks a registry injects into a transport. *)
Record Hooks := mkHooks {
  onsessioninitialized : option (nat → string → World → World);
  onclose : option (nat → World → World)
}.

Definition fire_initialized (hk : Hooks) (t : nat) (sid : string) (w : World) : World :=
  match onsessioninitialized hk with
  | Some f => f t sid w
  | None => w
  end.

Definition fire_close (hk : Hooks) (t : nat) (w : World) : World :=
  match onclose hk with
  | Some f => f t w
  | None => w
  end.

(** ** The transport

    Modelled from the spec: [StreamableHTTPServerTransport]
    (streamableHttp.js) is not among the sources.  From the state machine of
    the transport the model keeps what a registry can observe:
    - an initialization message handled by an [Uninitialized] transport makes
      it call the generator, if there is one, take the result as its session
      identifier and notify the on-session-initialized callback; the
      transport is [Active] afterwards (the transient Initializing state is
      not kept);
    - DELETE on an [Active] transport that has an identifier closes it;
    - closing moves the transport to [Closed] and notifies the on-close
      callback; closing a [Closed] transport does nothing;
    - the reply carries the session identifier once there is one.
    What the transport writes and whether it throws is not computed: it is
    the [Exchange] argument. *)

Inductive Verb := POST | GET | DELETE.

Record Exchange := mkExchange {
  x_status : option nat;  (* status of the head the transport writes, if it writes one *)
  x_stream : bool;        (* that head announces an event stream *)
  x_ends : bool;          (* the transport ends the response *)
  x_throws : bool         (* handleRequest rejects *)
}.

(** How a call of [close()] ends. [CloseFails n]: the promise rejects, after
    ([n = true]) or before ([n = false]) the transport was closed and the
    on-close callback notified. *)
Inductive CloseOutcome :=
  | CloseOk
  | CloseFails (notified : bool).

Definition transport_initialize (hk : Hooks) (gen : option (nat → string))
    (t : nat) (w : World) : World :=
  match gen with
  | None => set_state t Active w
  | Some g =>
      let sid := g (issued w) in
      set_state t Active
        (fire_initialized hk t sid (set_sessionId t sid (count_issue w)))
  end.

Definition transport_terminate (hk : Hooks) (t : nat) (w : World) : World :=
  fire_close hk t (set_state t Closed w).

(** [await transport.close()]: the world afterwards, and whether the promise
    rejected. *)
Definition transport_close (hk : Hooks) (t : nat) (o : CloseOutcome)
    (w : World) : World * bool :=
  let w0 := log_close t w in
  match state_of w0 t with
  | Some Closed => (w0, false)
  | _ =>
      match o with
      | CloseOk => (transport_terminate hk t w0, false)
      | CloseFails true => (transport_terminate hk t w0, true)
      | CloseFails false => (w0, true)
      end
  end.

Definition transport_respond (x : Exchange) (sid : option string) (r : Reply) : Reply :=
  let r1 := match x_status x with
            | Some s => raw_writeHead s (x_stream x) sid r
            | None => r
            end in
  if x_ends x then raw_end r1 else r1.

(** [await transport.handleRequest(req, res, body)]: the world and the reply
    afterwards, and whether the promise rejected. *)
Definition transport_handleRequest (hk : Hooks) (gen : option (nat → string))
    (t : nat) (verb : Verb) (body : option Body) (x : Exchange)
    (w : World) (r : Reply) : World * Reply * bool :=
  let w0 := log_handle t w in
  let w1 :=
    match verb, state_of w0 t, body with
    | POST, Some Uninitialized, Some b =>
        if isInitializeRequest b then transport_initialize hk gen t w0 else w0
    | DELETE, Some Active, _ =>
        if bool_decide (is_Some (sessionId_of w0 t))
        then transport_terminate hk t w0 else w0
    | _, _, _ => w0
    end in
  (w1, transport_respond x (sessionId_of w1 t) r, x_throws x).

(** Modelled from the spec: what [handleRequest] does to the transport when
    it is called, before its promise settles (the world of
    [transport_handleRequest]). *)
Definition transport_receive (hk : Hooks) (gen : option (nat → string))
    (t : nat) (verb : Verb) (body : option Body) (w : World) : World :=
  let w0 := log_handle t w in
  match verb, state_of w0 t, body with
  | POST, Some Uninitialized, Some b =>
      if isInitializeRequest b then transport_initialize hk gen t w0 else w0
  | DELETE, Some Active, _ =>
      if bool_decide (is_Some (sessionId_of w0 t))
      then transport_terminate hk t w0 else w0
  | _, _, _ => w0
  end.

(** ** Reading the table

    The own property names of [Object.prototype].  All of them are functions,
    except [__proto__], which reads as the prototype object: every one is
    truthy, none is a transport, and none is enumerated by [for ... in]. *)
Definition object_prototype_names : list string :=
  ["constructor"; "__defineGetter__"; "__defineSetter__"; "hasOwnProperty";
   "__lookupGetter__"; "__lookupSetter__"; "isPrototypeOf";
   "propertyIsEnumerable"; "toString"; "valueOf"; "__proto__"; "toLocaleString"].

Definition inherited (k : string) : bool :=
  bool_decide (k ∈ object_prototype_names).

(** What [table[k]] evaluates to, while the prototype of the table is
    [Object.prototype] (see [never_proto]). *)
Inductive Slot :=
  | Own (transport : nat)   (* an entry of the table *)
  | Inherited               (* a member of Object.prototype: truthy, no transport *)
  | Missing.                (* undefined *)

Definition property (w : World) (k : string) : Slot :=
  match transportMap w !! k with
  | Some t => Own t
  | None => if inherited k then Inherited else Missing
  end.

(** [sessionId && table[sessionId]], with [table] the [transportMap] of
    [registerMcpServer] or the [transports] of [registerMcpRoutes]; [Missing]
    stands for every falsy result. *)
Definition lookup_session (h : option string) (w : World) : Slot :=
  match h with
  | Some sid => if truthy_string sid then property w sid else Missing
  | None => Missing
  end.

(** * registerMcpServer (src/server/fastify.ts) *)

Module Server.

Section registerMcpServer.

(** [options.transportOptions?.sessionIdGenerator] *)
Variable sessionIdGenerator : option (nat → string).

(** [onsessioninitialized: (sid) => { if (sid) transportMap[sid] = transport }].
    The assignment adds or replaces the own property [sid] for every name but
    ["__proto__"] (see [never_proto]). *)
Definition on_initialized (transport : nat) (sid : string) (w : World) : World :=
  if truthy_string sid then with_map (<[sid := transport]>) w else w.

(** [transport.onclose]: [if (sid && transportMap[sid]) delete transportMap[sid]] *)
Definition on_close (transport : nat) (w : World) : World :=
  match sessionId_of w transport with
  | Some sid =>
      if truthy_string sid then
        match property w sid with
        | Missing => w
        | _ => with_map (delete sid) w
        end
      else w
  | None => w
  end.

Definition hooks : Hooks := mkHooks (Some on_initialized) (Some on_close).

(** What the environment decides during a POST. *)
Record PostEnv := mkPostEnv {
  factory_throws : bool;   (* options.serverFactory() throws *)
  connect_throws : bool;   (* server.connect(transport) rejects *)
  exchange : Exchange
}.

Definition handleFastifyRequest (transport : nat) (b : Body) (x : Exchange)
    (w : World) (r : Reply) : World * Reply * bool :=
  transport_handleRequest hooks sessionIdGenerator transport POST (Some b) x w r.

(** The [catch] block of the POST handler. *)
Definition post_catch (r : Reply) : Reply :=
  if sent r then r else reply_send 500 internal_error r.

Definition post_handler (h : option string) (b : Body) (e : PostEnv)
    (w : World) : World * Reply :=
  match lookup_session h w with
  | Own transport =>
      let '(w1, r1, threw) :=
        handleFastifyRequest transport b (exchange e) w fresh_reply in
      (w1, if threw then post_catch r1 else r1)
  | Inherited =>
      (* transport.handleRequest is not a function: the call throws *)
      (w, post_catch fresh_reply)
  | Missing =>
      if negb (truthy h) && isInitializeRequest b then
        let '(transport, w1) := new_transport w in
        if factory_throws e || connect_throws e
        then (w1, post_catch fresh_reply)
        else
          let '(w2, r2, threw) :=
            handleFastifyRequest transport b (exchange e) w1 fresh_reply in
          (w2, if threw then post_catch r2 else r2)
      else (w, reply_send 400 no_valid_session fresh_reply)
  end.

Definition get_handler (h : option string) (x : Exchange) (w : World) : World * Reply :=
  match lookup_session h w with
  | Missing => (w, reply_send 400 (PlainText "Invalid or missing session ID") fresh_reply)
  | Inherited =>
      (* transport.sessionId is undefined; transport.handleRequest throws *)
      let r1 := raw_writeHead 200 true None fresh_reply in
      (w, if negb (sent r1) && negb (writableEnded r1) then raw_end r1 else r1)
  | Own transport =>
      let sid := sessionId_of w transport in
      let r1 := raw_writeHead 200 true (if truthy sid then sid else None) fresh_reply in
      let '(w1, r2, threw) :=
        transport_handleRequest hooks sessionIdGenerator transport GET None x w r1 in
      (w1, if threw
           then (if negb (sent r2) && negb (writableEnded r2) then raw_end r2 else r2)
           else (if negb (sent r2) && negb (writableEnded r2) then raw_end r2 else r2))
  end.

Definition delete_handler (h : option string) (o : CloseOutcome) (w : World) : World * Reply :=
  match h with
  | Some sid =>
      if truthy_string sid then
        match property w sid with
        | Own transport =>
            let '(w1, rejected) := transport_close hooks transport o w in
            if rejected
            then (w1, if sent fresh_reply then fresh_reply
                      else reply_send 500 (PlainText "Error processing session termination")
                                      fresh_reply)
            else
              let w2 := with_map (delete sid) w1 in
              let r1 := raw_set_statusCode 200 fresh_reply in
              (w2, if negb (sent r1) && negb (writableEnded r1) then raw_end r1 else r1)
        | Inherited =>
            (* transport.close is not a function: the call throws *)
            (w, if sent fresh_reply then fresh_reply
                else reply_send 500 (PlainText "Error processing session termination")
                                fresh_reply)
        | Missing =>
            (w, reply_send 400 (PlainText "Invalid or missing session ID") fresh_reply)
        end
      else (w, reply_send 400 (PlainText "Invalid or missing session ID") fresh_reply)
  | None => (w, reply_send 400 (PlainText "Invalid or missing session ID") fresh_reply)
  end.

(** The [onClose] hook: the body of [for (const sessionId in transportMap)]
    over the keys the loop enumerates.  The keys are fixed when the loop
    starts; a key deleted before its turn is skipped.  [faults] says how the
    close of the transport found under each key ends. *)
Fixpoint shutdown_loop (faults : string → CloseOutcome) (keys : list string)
    (w : World) : World :=
  match keys with
  | [] => w
  | sid :: rest =>
      match transportMap w !! sid with
      | None => shutdown_loop faults rest w
      | Some transport =>
          let '(w1, rejected) := transport_close hooks transport (faults sid) w in
          shutdown_loop faults rest
            (if rejected then w1 else with_map (delete sid) w1)
      end
  end.

(** The order of [for ... in]: the own keys that are array indices, in
    ascending order, then the other own keys in the order in which they were
    added to the table.  The world does not record when a key was added: the
    place of each key in the enumeration is the argument [rank] (lower rank
    first).  Whatever [rank] is, the enumeration holds every key of the table
    once. *)
Definition enumerated_before (rank : string → nat) : relation string :=
  λ a b, (rank a ≤ rank b)%nat.

#[local] Instance enumerated_before_dec rank : RelDecision (enumerated_before rank) :=
  λ a b, decide (rank a ≤ rank b)%nat.

Definition for_in (rank : string → nat) (w : World) : list string :=
  merge_sort (enumerated_before rank) (map_to_list (transportMap w)).*1.

Definition onClose (rank : string → nat) (faults : string → CloseOutcome)
    (w : World) : World :=
  shutdown_loop faults (for_in rank w) w.

(** Requests and events, and the run of the registry over them.  In these
    runs a transport is closed by the registry, on DELETE and at shutdown; a
    transport that closes on its own account between two requests is not an
    event. *)
Inductive Request :=
  | Post (h : option string) (b : Body) (e : PostEnv)
  | Get (h : option string) (x : Exchange)
  | Delete (h : option string) (o : CloseOutcome).

Definition handle (rq : Request) (w : World) : World * Reply :=
  match rq with
  | Post h b e => post_handler h b e w
  | Get h x => get_handler h x w
  | Delete h o => delete_handler h o w
  end.

Inductive Event :=
  | Incoming (rq : Request)
  | Shutdown (rank : string → nat) (faults : string → CloseOutcome).

Definition step (w : World) (ev : Event) : World :=
  match ev with
  | Incoming rq => fst (handle rq w)
  | Shutdown rank faults => onClose rank faults w
  end.

Definition run (w : World) (evs : list Event) : World := foldl step w evs.

(** The header a request bears. *)
Definition header (rq : Request) : option string :=
  match rq with
  | Post h _ _ => h
  | Get h _ => h
  | Delete h _ => h
  end.

End registerMcpServer.

End Server.

(** * registerMcpRoutes (second adapter file) *)

Module Routes.

(** A property of an options object: not written at all, or written with a
    value that may be [undefined]. *)
Inductive JsProperty (A : Type) :=
  | absent
  | given (v : option A).
Arguments absent {A}.
Arguments given {A} v.

(** A destructuring default [{ p = dflt } = options]: the default is taken
    whenever the property evaluates to [undefined]. *)
Definition destructure {A : Type} (dflt : option A) (p : JsProperty A) : option A :=
  match p with
  | absent => dflt
  | given None => dflt
  | given (Some v) => Some v
  end.

Record FastifyMcpAdapterOptions := mkOptions {
  route : JsProperty string;
  sessionIdGenerator : JsProperty (nat → string);
  enableJsonResponse : JsProperty bool;
  eventStore : JsProperty nat
}.

Section registerMcpRoutes.

(** [randomUUID] of node:crypto, as the sequence of its results. *)
Variable randomUUID : nat → string.

(** [options: FastifyMcpAdapterOptions = {}] *)
Definition default_options : FastifyMcpAdapterOptions :=
  mkOptions absent absent absent absent.

(** The four variables bound by the destructuring at the top of
    [registerMcpRoutes]. *)
Definition effective_route (o : option FastifyMcpAdapterOptions) : option string :=
  destructure (Some "/mcp") (route (default default_options o)).

Definition effective_generator (o : option FastifyMcpAdapterOptions)
    : option (nat → string) :=
  destructure (Some randomUUID) (sessionIdGenerator (default default_options o)).

Definition effective_enableJsonResponse (o : option FastifyMcpAdapterOptions)
    : option bool :=
  destructure (Some false) (enableJsonResponse (default default_options o)).

Definition effective_eventStore (o : option FastifyMcpAdapterOptions) : option nat :=
  destructure None (eventStore (default default_options o)).

(** The handlers close over the destructured [sessionIdGenerator]. *)
Variable gen : option (nat → string).

(** [(sid) => { transports[sid] = transport }].  The assignment adds or
    replaces the own property [sid] for every name but ["__proto__"] (see
    [never_proto]). *)
Definition on_initialized (transport : nat) (sid : string) (w : World) : World :=
  with_map (<[sid := transport]>) w.

(** [if (transport.sessionId) delete transports[transport.sessionId]] *)
Definition on_close (transport : nat) (w : World) : World :=
  match sessionId_of w transport with
  | Some sid => if truthy_string sid then with_map (delete sid) w else w
  | None => w
  end.

(** Both callbacks are installed only when [sessionIdGenerator !== undefined]. *)
Definition hooks : Hooks :=
  match gen with
  | Some _ => mkHooks (Some on_initialized) (Some on_close)
  | None => mkHooks None None
  end.

Record PostEnv := mkPostEnv {
  connect_throws : bool;   (* mcpServer.connect(transport) rejects *)
  exchange : Exchange
}.

(** The third component tells whether the handler's promise rejected: the
    handler has no [try]; what Fastify then answers is not part of this
    file. *)
Definition post_handler (h : option string) (b : Body) (e : PostEnv)
    (w : World) : World * Reply * bool :=
  match lookup_session h w with
  | Own transport =>
      let '(w1, r1, threw) :=
        transport_handleRequest hooks gen transport POST (Some b) (exchange e)
                                w fresh_reply in
      if threw then (w1, r1, true) else (w1, reply_hijack r1, false)
  | Inherited =>
      (* transport.handleRequest is not a function: the call throws *)
      (w, fresh_reply, true)
  | Missing =>
      if negb (truthy h) && isInitializeRequest b then
        let '(transport, w1) := new_transport w in
        if connect_throws e then (w1, fresh_reply, true)
        else
          let '(w2, r2, threw) :=
            transport_handleRequest hooks gen transport POST (Some b) (exchange e)
                                    w1 fresh_reply in
          if threw then (w2, r2, true) else (w2, reply_hijack r2, false)
      else (w, reply_send 400 no_valid_session fresh_reply, false)
  end.

(** The handler shared by GET and DELETE. *)
Definition handleSessionRequest (verb : Verb) (h : option string) (x : Exchange)
    (w : World) : World * Reply * bool :=
  match gen with
  | None => (w, reply_send 405 stateless_refusal fresh_reply, false)
  | Some _ =>
      match lookup_session h w with
      | Missing =>
          (w, reply_send 400 (PlainText "Invalid or missing session ID") fresh_reply,
           false)
      | Inherited => (w, fresh_reply, true)
      | Own transport =>
          let '(w1, r1, threw) :=
            transport_handleRequest hooks gen transport verb None x w fresh_reply in
          if threw then (w1, r1, true) else (w1, reply_hijack r1, false)
      end
  end.

(** Requests, and the run of the registry over them.  Here a transport is
    closed by its own handling of a DELETE. *)
Inductive Request :=
  | Post (h : option string) (b : Body) (e : PostEnv)
  | Get (h : option string) (x : Exchange)
  | Delete (h : option string) (x : Exchange).

Definition handle (rq : Request) (w : World) : World * Reply * bool :=
  match rq with
  | Post h b e => post_handler h b e w
  | Get h x => handleSessionRequest GET h x w
  | Delete h x => handleSessionRequest DELETE h x w
  end.

Definition step (w : World) (rq : Request) : World := fst (fst (handle rq w)).

Definition run (w : World) (rqs : list Request) : World := foldl step w rqs.

End registerMcpRoutes.


Definition registered_session (randomUUID : nat → string)
    (o : option FastifyMcpAdapterOptions) :=
  handleSessionRequest (effective_generator randomUUID o).

End Routes.

(** * createStatelessMcpHandler (second adapter file) *)

Module Stateless.

(** The handler is asynchronous: it runs to its first [await]
    ([server.connect]); when that promise resolves it calls
    [transport.handleRequest] and waits again; when that promise settles it
    runs to its end.  The ['close'] event of [request.raw] may be delivered
    between any two of these pieces, or after the last; it is delivered at
    most once, and not before the handler was entered. *)
Inductive Phase := AwaitConnect | AwaitHandle | Done.

Record Call := mkCall {
  listener : option (nat * nat); (* transport and server captured by the 'close' listener *)
  phase : Phase;
  body : Body;
  reply : Reply;
  closed : bool                  (* 'close' was emitted on request.raw *)
}.

Record State := mkState {
  world : World;
  serverCloseLog : list nat;     (* servers close() was called on, latest first *)
  calls : list Call              (* one entry per request, in order of arrival *)
}.

Definition start : State := mkState initial [] [].

(** No callback is given to the transport, and no generator. *)
Definition hooks : Hooks := mkHooks None None.

(** The [catch] block. *)
Definition handler_catch (r : Reply) : Reply :=
  if sent r then r else reply_send 500 internal_error r.

(** [getServer] is a function of the caller: what it returns at a call (a
    server, which may be one it returned before) or that it throws ([None])
    comes with the request. *)
Inductive Event :=
  | Enter (b : Body) (getServer : option nat)
  | ConnectSettles (rq : nat) (rejects : bool)
  | HandleSettles (rq : nat) (x : Exchange)
  | RequestClose (rq : nat) (o : CloseOutcome).

(** From the entry of the handler to [await server.connect(transport)]. *)
Definition enter (b : Body) (getServer : option nat) (st : State) : State :=
  match getServer with
  | None =>
      mkState (world st) (serverCloseLog st)
              (calls st ++ [mkCall None Done b (handler_catch fresh_reply) false])
  | Some server =>
      let '(transport, w1) := new_transport (world st) in
      mkState w1 (serverCloseLog st)
              (calls st ++ [mkCall (Some (transport, server)) AwaitConnect b fresh_reply false])
  end.

Definition set_call (rq : nat) (c : Call) (st : State) : State :=
  mkState (world st) (serverCloseLog st) (<[rq := c]> (calls st)).

(** [await server.connect(transport)] settles: the [catch] block, or the
    call [transport.handleRequest(request.raw, reply.raw, request.body)]. *)
Definition connect_settles (rq : nat) (rejects : bool) (st : State) : State :=
  match calls st !! rq with
  | Some (mkCall (Some (transport, server)) AwaitConnect b r cl) =>
      if rejects
      then set_call rq (mkCall (Some (transport, server)) Done b (handler_catch r) cl) st
      else
        mkState (transport_receive hooks None transport POST (Some b) (world st))
                (serverCloseLog st)
                (<[rq := mkCall (Some (transport, server)) AwaitHandle b r cl]> (calls st))
  | _ => st
  end.

(** The promise of [transport.handleRequest] settles: what the transport
    wrote is on the reply; then [reply.hijack()], or the [catch] block. *)
Definition handle_settles (rq : nat) (x : Exchange) (st : State) : State :=
  match calls st !! rq with
  | Some (mkCall (Some (transport, server)) AwaitHandle b r cl) =>
      let r1 := transport_respond x (sessionId_of (world st) transport) r in
      let r2 := if x_throws x then handler_catch r1 else reply_hijack r1 in
      set_call rq (mkCall (Some (transport, server)) Done b r2 cl) st
  | _ => st
  end.

(** ['close'] is emitted on [request.raw]: the listener runs
    [transport.close(); server.close();].  Neither promise is awaited, so a
    [close] that rejects does not stop the listener. *)
Definition request_close (rq : nat) (o : CloseOutcome) (st : State) : State :=
  match calls st !! rq with
  | Some (mkCall l p b r false) =>
      match l with
      | Some (transport, server) =>
          let '(w1, _) := transport_close hooks transport o (world st) in
          mkState w1 (server :: serverCloseLog st)
                  (<[rq := mkCall l p b r true]> (calls st))
      | None => set_call rq (mkCall l p b r true) st
      end
  | _ => st
  end.

Definition step (st : State) (ev : Event) : State :=
  match ev with
  | Enter b getServer => enter b getServer st
  | ConnectSettles rq rej => connect_settles rq rej st
  | HandleSettles rq x => handle_settles rq x st
  | RequestClose rq o => request_close rq o st
  end.

Definition run (st : State) (evs : list Event) : State := foldl step st evs.

End Stateless.

(** The initialization POST of [registerMcpServer]: the header is falsy, the
    body is an initialization message, and neither the factory nor the
    connection throws. *)
Definition initializes (rq : Server.Request) : Prop :=
  ∃ h b e, rq = Server.Post h b e ∧ truthy h = false
           ∧ isInitializeRequest b = true
           ∧ Server.factory_throws e || Server.connect_throws e = false.


(** * The prototype of the table

    [table["__proto__"] = t] adds no key: it replaces the prototype of the
    table by the transport, and what the table reads afterwards under a name
    it does not hold is a member of the transport.  [on_initialized],
    [on_close] and [property] describe a table whose prototype is
    [Object.prototype]; the statements below about what a table holds and
    answers are made for generators that never return this name. *)
Definition never_proto (gen : option (nat → string)) : Prop :=
  ∀ g n, gen = Some g → g n ≠ "__proto__".

(** The header names no session: it is absent or empty, or it is neither a
    key of the table nor a name the table inherits from [Object.prototype]. *)
Definition names_no_session (h : option string) (w : World) : Prop :=
  truthy h = false
  ∨ ∃ sid, h = Some sid ∧ truthy_string sid = true
           ∧ transportMap w !! sid = None ∧ inherited sid = false.

(** * Sample inputs *)

Definition sample_generator : nat → string := λ n, "session-" +:+ pretty n.

Definition sample_exchange : Exchange := mkExchange (Some 200) true true false.

Definition faulty_exchange : Exchange := mkExchange (Some 500) false false true.

(** The world after one initialization POST. *)
Definition one_session : World :=
  (Server.post_handler (Some sample_generator) None InitializeMessage
     (Server.mkPostEnv false false sample_exchange) initial).1.

Definition sample_init : Server.Event :=
  Server.Incoming (Server.Post None InitializeMessage
                     (Server.mkPostEnv false false sample_exchange)).

(** The world after two initialization POSTs. *)
Definition two_sessions : World :=
  Server.run (Some sample_generator) initial [sample_init; sample_init].

Definition routes_sample_init : Routes.Request :=
  Routes.Post None InitializeMessage (Routes.mkPostEnv false sample_exchange).

(** A generator that never repeats itself and whose first identifier is the
    name of a member of [Object.prototype]. *)
Definition prototype_name_generator : nat → string :=
  λ n, match n with
       | 0 => "constructor"
       | S _ => "session-" +:+ pretty n
       end.

(** Closes fail for one key, before the transport is closed. *)
Definition fails_for (sid : string) : string → CloseOutcome :=
  λ k, if bool_decide (k = sid) then CloseFails false else CloseOk.

(** A generator that returns the same string at every call. *)
Definition constant_generator : nat → string := λ _, "s".

(** * Invariants of the table *)

(** Every entry of the table is keyed by the identifier of the transport it
    holds, and that transport is [Active]. *)
Definition table_wf (w : World) : Prop :=
  ∀ k t, transportMap w !! k = Some t →
    sessionId_of w t = Some k ∧ state_of w t = Some Active.

(** The keys of the table of [registerMcpServer] are truthy. *)
Definition keys_truthy (w : World) : Prop :=
  ∀ k t, transportMap w !! k = Some t → truthy_string k = true.

(** Every key of the table was returned by the generator. *)
Definition keys_issued (g : nat → string) (w : World) : Prop :=
  ∀ k t, transportMap w !! k = Some t → ∃ i, i < issued w ∧ k = g i.

(** A request that bears the identifier [S]. *)
Definition bears (S : string) (rq : Server.Request) : Prop :=
  Server.header rq = Some S.

(** One turn of the loop of the [onClose] hook. *)
Definition shutdown_visit (faults : string → CloseOutcome) (sid : string)
    (w : World) : World :=
  match transportMap w !! sid with
  | None => w
  | Some transport =>
      let '(w1, rejected) := transport_close Server.hooks transport (faults sid) w in
      if rejected then w1 else with_map (delete sid) w1
  end.

(** A close that rejects before the transport is closed. *)
Definition fails_early (o : CloseOutcome) : bool :=
  match o with
  | CloseFails false => true
  | _ => false
  end.

(** The identifier [S] was returned by the generator and is no key of the
    table. *)
Definition retired (gen : option (nat → string)) (S : string) (w : World) : Prop :=
  transportMap w !! S = None
  ∧ ∀ g, gen = Some g → ∃ i, i < issued w ∧ S = g i.




(** * Further definitions

    [const path = options.path || "/mcp"] of [registerMcpServer]: the option
    [path?: string] is missing, [undefined] or a string, and [||] takes the
    default for every falsy value. *)
Module FastifyMcpOptions.

Definition path (options_path : option string) : string :=
  match options_path with
  | Some p => if truthy_string p then p else "/mcp"
  | None => "/mcp"
  end.

End FastifyMcpOptions.

(** The test that leads a POST handler to
    [new StreamableHTTPServerTransport(...)]:
    [!sessionId && isInitializeRequest(request.body)]. *)
Definition constructs (h : option string) (b : Body) : bool :=
  negb (truthy h) && isInitializeRequest b.

Definition server_constructs (ev : Server.Event) : bool :=
  match ev with
  | Server.Incoming (Server.Post h b _) => constructs h b
  | _ => false
  end.

Definition routes_constructs (rq : Routes.Request) : bool :=
  match rq with
  | Routes.Post h b _ => constructs h b
  | _ => false
  end.

(** A generator that returns the empty string. *)
Definition empty_generator : nat → string := λ _, EmptyString.

(** No key of the table is bound to the transport [t]. *)
Definition unbound (t : nat) (w : World) : Prop :=
  ∀ k, transportMap w !! k ≠ Some t.

(** The header a request to [registerMcpRoutes] bears. *)
Definition routes_header (rq : Routes.Request) : option string :=
  match rq with
  | Routes.Post h _ _ => h
  | Routes.Get h _ => h
  | Routes.Delete h _ => h
  end.

(** The stateless handler keeps no session: no table, no call of a
    generator, no transport with an identifier, no session header. *)
Definition stateless_sessionless (st : Stateless.State) : Prop :=
  transportMap (Stateless.world st) = ∅
  ∧ issued (Stateless.world st) = 0
  ∧ (∀ t, sessionId_of (Stateless.world st) t = None)
  ∧ (∀ rq c, Stateless.calls st !! rq = Some c →
       sessionHeader (Stateless.reply c) = None).

(** The transport of a request of the stateless handler is its own, and is
    handed the request once, when [server.connect] has resolved. *)
Definition stateless_private (st : Stateless.State) : Prop :=
  (∀ rq1 rq2 c1 c2 t s1 s2,
     Stateless.calls st !! rq1 = Some c1 → Stateless.calls st !! rq2 = Some c2 →
     Stateless.listener c1 = Some (t, s1) → Stateless.listener c2 = Some (t, s2) →
     rq1 = rq2)
  ∧ (∀ rq c t s, Stateless.calls st !! rq = Some c →
       Stateless.listener c = Some (t, s) → t < length (heap (Stateless.world st)))
  ∧ (∀ t, t ∈ handleLog (Stateless.world st) → t < length (heap (Stateless.world st)))
  ∧ (∀ rq c t s, Stateless.calls st !! rq = Some c →
       Stateless.listener c = Some (t, s) →
       Stateless.phase c = Stateless.AwaitConnect →
       t ∉ handleLog (Stateless.world st))
  ∧ (∀ rq c, Stateless.calls st !! rq = Some c →
       Stateless.phase c ≠ Stateless.Done → Stateless.reply c = fresh_reply)
  ∧ NoDup (handleLog (Stateless.world st)).

(** A request of the stateless handler that ended without its transport
    being handed anything. *)
Definition stateless_unhandled (rq t : nat) (st : Stateless.State) : Prop :=
  (t ∉ handleLog (Stateless.world st))
  ∧ ∃ c s, Stateless.calls st !! rq = Some c
           ∧ Stateless.listener c = Some (t, s)
           ∧ Stateless.phase c = Stateless.Done
           ∧ Stateless.reply c = reply_send 500 internal_error fresh_reply.

(** * Properties *)

(** ** Replies *)

Lemma transport_respond_payload x sid r :
  payload (transport_respond x sid r) = payload r.
Proof.
  unfold transport_respond, raw_writeHead, raw_end.
  destruct (x_status x), (x_ends x), (statusLine r); reflexivity.
Qed.

Lemma transport_respond_hijacked x sid r :
  hijacked (transport_respond x sid r) = hijacked r.
Proof.
  unfold transport_respond, raw_writeHead, raw_end.
  destruct (x_status x), (x_ends x), (statusLine r); reflexivity.
Qed.

(** Once the status line is on the socket the transport cannot replace it. *)
Lemma transport_respond_committed x sid r c :
  statusLine r = Some c →
  statusLine (transport_respond x sid r) = Some c
  ∧ eventStream (transport_respond x sid r) = eventStream r
  ∧ sessionHeader (transport_respond x sid r) = sessionHeader r.
Proof.
  intros Hc. unfold transport_respond, raw_writeHead, raw_end.
  destruct (x_status x), (x_ends x); rewrite ?Hc; simpl; rewrite ?Hc; auto.
Qed.

Lemma handleRequest_reply hk gen t verb b x w r :
  (transport_handleRequest hk gen t verb b x w r).1.2
  = transport_respond x
      (sessionId_of (transport_handleRequest hk gen t verb b x w r).1.1 t) r.
Proof. reflexivity. Qed.

Lemma lookup_session_Own h w t :
  lookup_session h w = Own t ↔
  ∃ sid, h = Some sid ∧ truthy_string sid = true ∧ transportMap w !! sid = Some t.
Proof.
  unfold lookup_session, property. split.
  - destruct h as [sid|]; [|done]. destruct (truthy_string sid) eqn:E; [|done].
    destruct (transportMap w !! sid) as [t'|] eqn:Hk.
    + intros [= ->]. eauto.
    + by destruct (inherited sid).
  - intros (sid & -> & -> & ->). done.
Qed.

Lemma lookup_session_falsy h w : truthy h = false → lookup_session h w = Missing.
Proof.
  unfold lookup_session, truthy. destruct h as [sid|]; [|done]. by intros ->.
Qed.

Lemma lookup_session_unknown sid w :
  transportMap w !! sid = None → inherited sid = false →
  lookup_session (Some sid) w = Missing.
Proof.
  unfold lookup_session, property. intros -> ->. by destruct (truthy_string sid).
Qed.

Lemma lookup_session_empty h w :
  transportMap w = ∅ → (∀ sid, h = Some sid → inherited sid = false) →
  lookup_session h w = Missing.
Proof.
  intros Hem Hh. unfold lookup_session, property. destruct h as [sid|]; [|done].
  rewrite Hem, lookup_empty, (Hh sid eq_refl). by destruct (truthy_string sid).
Qed.

(** ** A POST that names no session and brings no initialization

    The world is left as it was, and the answer is the envelope of code
    -32000 under status 400. *)
Lemma post_refused gen h b e1 e2 w :
  (∃ sid, h = Some sid ∧ truthy_string sid = true ∧ transportMap w !! sid = None
          ∧ inherited sid = false)
  ∨ (truthy h = false ∧ isInitializeRequest b = false) →
  Server.post_handler gen h b e1 w
    = (w, mkReply (Some 400) false None
            (JsonRpcError (-32000) "Bad Request: No valid session ID provided")
            400 true false)
  ∧ Routes.post_handler gen h b e2 w
    = (w, mkReply (Some 400) false None
            (JsonRpcError (-32000) "Bad Request: No valid session ID provided")
            400 true false, false).
Proof.
  intros [(sid & -> & Ht & Hk & Hi) | [Hf Hb]].
  - unfold Server.post_handler, Routes.post_handler.
    rewrite (lookup_session_unknown _ _ Hk Hi). simpl. rewrite Ht. simpl. done.
  - unfold Server.post_handler, Routes.post_handler.
    rewrite (lookup_session_falsy _ _ Hf), Hf, Hb. simpl. done.
Qed.

(** C2, as stated, fails on a header that is present and empty: with an
    initialization body the handler builds a transport and the transport
    answers. *)
Lemma post_empty_header_creates_transport :
  ¬ (∀ gen h b e w,
       (∃ sid, h = Some sid ∧ transportMap w !! sid = None)
       ∨ (h = None ∧ isInitializeRequest b = false) →
       statusLine (Server.post_handler gen h b e w).2 = Some 400
       ∧ heap (Server.post_handler gen h b e w).1 = heap w).
Proof.
  intros H.
  destruct (H None (Some EmptyString) InitializeMessage
              (Server.mkPostEnv false false (mkExchange (Some 200) false true false))
              initial) as [Hs _].
  - left. exists EmptyString. split; reflexivity.
  - vm_compute in Hs. discriminate Hs.
Qed.

(** A header that names a member of [Object.prototype] passes the test on
    the header although the table has no such entry.  In [registerMcpServer]
    the POST then ends in its catch block (500, code -32603), the GET writes
    the head and ends the stream (200), and the DELETE ends in its catch
    block (500, plain text). *)
Lemma inherited_name_passes_the_test gen b e x o w sid :
  inherited sid = true → transportMap w !! sid = None →
  Server.post_handler gen (Some sid) b e w
    = (w, reply_send 500 (JsonRpcError (-32603) "Internal server error") fresh_reply)
  ∧ Server.get_handler gen (Some sid) x w
    = (w, raw_end (raw_writeHead 200 true None fresh_reply))
  ∧ Server.delete_handler (Some sid) o w
    = (w, reply_send 500 (PlainText "Error processing session termination")
            fresh_reply).
Proof.
  intros Hi Hk.
  assert (Ht : truthy_string sid = true).
  { destruct sid; [|done]. vm_compute in Hi. discriminate Hi. }
  assert (Hl : lookup_session (Some sid) w = Inherited).
  { unfold lookup_session, property. by rewrite Ht, Hk, Hi. }
  split; [|split].
  - unfold Server.post_handler. by rewrite Hl.
  - unfold Server.get_handler. by rewrite Hl.
  - unfold Server.delete_handler, property. by rewrite Ht, Hk, Hi.
Qed.

(** ** C10: the GET handler of registerMcpServer commits 200 first *)

(** C10.  When the header names an entry of the table, the GET handler of
    [registerMcpServer] writes status 200 and the event-stream head before
    the transport is called.  Whatever the transport then writes, and whether
    it returns or throws, the client sees status 200 with the event-stream
    head, the handler sends no body of its own (no error envelope), and the
    response is ended. *)
Theorem get_known_session_is_200 gen h x w t :
  lookup_session h w = Own t →
  let r := (Server.get_handler gen h x w).2 in
  statusLine r = Some 200
  ∧ eventStream r = true
  ∧ payload r = NoPayload
  ∧ writableEnded r = true
  ∧ handleLog (Server.get_handler gen h x w).1 = t :: handleLog w.
Proof.
  intros Ht. unfold Server.get_handler. rewrite Ht.
  set (r1 := raw_writeHead 200 true _ fresh_reply).
  destruct (transport_handleRequest (Server.hooks) gen t GET None x w r1)
    as [[w1 r2] threw] eqn:E.
  assert (Hr2 : r2 = transport_respond x (sessionId_of w1 t) r1).
  { pose proof (handleRequest_reply Server.hooks gen t GET None x w r1) as Hr.
    rewrite E in Hr. exact Hr. }
  assert (Hw1 : w1 = log_handle t w).
  { unfold transport_handleRequest in E. simpl in E. congruence. }
  assert (Hc : statusLine r1 = Some 200) by reflexivity.
  destruct (transport_respond_committed x (sessionId_of w1 t) r1 200 Hc)
    as (Hs & He & _).
  pose proof (transport_respond_payload x (sessionId_of w1 t) r1) as Hp.
  rewrite <- Hr2 in Hs, He, Hp.
  assert (Hfin : ∀ r', r' = (if negb (sent r2) && negb (writableEnded r2)
                              then raw_end r2 else r2) →
                 statusLine r' = Some 200 ∧ eventStream r' = true
                 ∧ payload r' = NoPayload ∧ writableEnded r' = true).
  { intros r' ->. unfold sent.
    destruct (writableEnded r2) eqn:Hend.
    - rewrite orb_true_r. simpl. rewrite Hs, He, Hp. done.
    - rewrite orb_false_r.
      assert (Hh : hijacked r2 = false).
      { rewrite Hr2, transport_respond_hijacked. reflexivity. }
      rewrite Hh. unfold raw_end. simpl. rewrite Hs, He, Hp. done. }
  simpl.
  destruct (Hfin _ eq_refl) as (A & B & C & D).
  destruct threw; simpl; rewrite Hw1; done.
Qed.

Lemma get_known_session_is_200_witness :
  let r := (Server.get_handler (Some sample_generator) (Some "session-0")
              faulty_exchange one_session).2 in
  statusLine r = Some 200
  ∧ eventStream r = true
  ∧ payload r = NoPayload
  ∧ writableEnded r = true
  ∧ handleLog (Server.get_handler (Some sample_generator) (Some "session-0")
                 faulty_exchange one_session).1 = 0 :: handleLog one_session.
Proof.
  apply (get_known_session_is_200 (Some sample_generator) (Some "session-0")
           faulty_exchange one_session 0).
  vm_compute. reflexivity.
Defined.

(** ** The bodies of the failures, handler by handler *)

Lemma failure_paths gen w :
  (∀ h b e1 e2, lookup_session h w = Missing →
     negb (truthy h) && isInitializeRequest b = false →
     (Server.post_handler gen h b e1 w).2
       = reply_send 400 (JsonRpcError (-32000) "Bad Request: No valid session ID provided")
                    fresh_reply
     ∧ (Routes.post_handler gen h b e2 w).1.2
       = reply_send 400 (JsonRpcError (-32000) "Bad Request: No valid session ID provided")
                    fresh_reply)
  ∧ (∀ h e, lookup_session h w = Missing → truthy h = false →
       Server.factory_throws e || Server.connect_throws e = true →
       (Server.post_handler gen h InitializeMessage e w).2
         = reply_send 500 (JsonRpcError (-32603) "Internal server error") fresh_reply)
  ∧ (∀ h b e, x_throws (Server.exchange e) = true →
       x_status (Server.exchange e) = None → x_ends (Server.exchange e) = false →
       Server.factory_throws e || Server.connect_throws e = false →
       ((∃ t, lookup_session h w = Own t) ∨ (truthy h = false ∧ b = InitializeMessage)) →
       (Server.post_handler gen h b e w).2
         = reply_send 500 (JsonRpcError (-32603) "Internal server error") fresh_reply)
  ∧ (∀ verb h x,
       (Routes.handleSessionRequest None verb h x w).1.2
         = reply_send 405 (JsonRpcError (-32000) "Method not allowed in stateless mode")
                      fresh_reply)
  ∧ (∀ h x o g verb, lookup_session h w = Missing →
       (Server.get_handler gen h x w).2
         = reply_send 400 (PlainText "Invalid or missing session ID") fresh_reply
       ∧ (Server.delete_handler h o w).2
         = reply_send 400 (PlainText "Invalid or missing session ID") fresh_reply
       ∧ (Routes.handleSessionRequest (Some g) verb h x w).1.2
         = reply_send 400 (PlainText "Invalid or missing session ID") fresh_reply)
  ∧ (∀ h t, lookup_session h w = Own t → state_of w t ≠ Some Closed →
       (Server.delete_handler h (CloseFails false) w).2
         = reply_send 500 (PlainText "Error processing session termination") fresh_reply).
Proof.
  split; [|split; [|split; [|split; [|split]]]].
  - intros h b e1 e2 Hl Hb. split.
    + unfold Server.post_handler. rewrite Hl, Hb. reflexivity.
    + unfold Routes.post_handler. rewrite Hl, Hb. reflexivity.
  - intros h e Hl Hf He. unfold Server.post_handler. rewrite Hl, Hf. simpl.
    rewrite He. reflexivity.
  - intros h b e Ht Hs He Hfc Hcase. unfold Server.post_handler.
    assert (Hresp : ∀ t w0,
      (let '(w1, r1, threw) :=
         Server.handleFastifyRequest gen t b (Server.exchange e) w0 fresh_reply in
       (w1, if threw then Server.post_catch r1 else r1)).2
      = reply_send 500 internal_error fresh_reply).
    { intros t w0. unfold Server.handleFastifyRequest, transport_handleRequest.
      simpl. rewrite Ht. unfold transport_respond. rewrite Hs, He. reflexivity. }
    destruct Hcase as [[t Hl] | [Hf ->]].
    + rewrite Hl. apply Hresp.
    + rewrite (lookup_session_falsy _ _ Hf), Hf. simpl. rewrite Hfc. apply Hresp.
  - intros verb h x. reflexivity.
  - intros h x o g verb Hl. split; [|split].
    + unfold Server.get_handler. by rewrite Hl.
    + unfold Server.delete_handler. unfold lookup_session in Hl.
      destruct h as [sid|]; [|done]. destruct (truthy_string sid); [|done].
      by rewrite Hl.
    + unfold Routes.handleSessionRequest. by rewrite Hl.
  - intros h t Hl Hst. apply lookup_session_Own in Hl as (sid & -> & Htr & Hk).
    unfold Server.delete_handler, property. rewrite Htr, Hk.
    unfold transport_close.
    assert (state_of (log_close t w) t = state_of w t) as -> by reflexivity.
    destruct (state_of w t) as [[]|]; try reflexivity. done.
Qed.

(** C5, as stated, fails on the GET handler: a GET without a session header
    is answered with a plain-text body, not with the envelope. *)
Lemma get_failure_is_plain_text :
  ¬ (∀ gen h x w, lookup_session h w = Missing →
       ∃ message,
         payload (Server.get_handler gen h x w).2 = JsonRpcError (-32000) message).
Proof.
  intros H. destruct (H None None sample_exchange initial eq_refl) as [m Hm].
  vm_compute in Hm. discriminate Hm.
Qed.

(** ** C9: the destructuring default of registerMcpRoutes *)

Lemma handleRequest_payload hk gen t verb b x w r :
  payload (transport_handleRequest hk gen t verb b x w r).1.2 = payload r.
Proof. rewrite handleRequest_reply. apply transport_respond_payload. Qed.

(** C9.  Whatever options [registerMcpRoutes] receives (none at all, an
    object without the property, or an object that sets [sessionIdGenerator]
    to [undefined]), the generator its handlers close over is defined; when
    the property is missing or [undefined] it is [randomUUID].  The shared GET
    and DELETE handler it registers therefore never sends the refusal
    "Method not allowed in stateless mode". *)
Theorem routes_generator_always_defined randomUUID :
  (∀ o, is_Some (Routes.effective_generator randomUUID o))
  ∧ Routes.effective_generator randomUUID None = Some randomUUID
  ∧ (∀ rt js es,
       Routes.effective_generator randomUUID
         (Some (Routes.mkOptions rt Routes.absent js es)) = Some randomUUID
       ∧ Routes.effective_generator randomUUID
           (Some (Routes.mkOptions rt (Routes.given None) js es)) = Some randomUUID)
  ∧ (∀ o verb h x w,
       payload (Routes.registered_session randomUUID o verb h x w).1.2
         ≠ JsonRpcError (-32000) "Method not allowed in stateless mode").
Proof.
  assert (Hdef : ∀ o, is_Some (Routes.effective_generator randomUUID o)).
  { intros o. unfold Routes.effective_generator, Routes.destructure.
    destruct (Routes.sessionIdGenerator _) as [|[g|]]; eauto. }
  split; [exact Hdef|]. split; [reflexivity|]. split; [intros; split; reflexivity|].
  intros o verb h x w. unfold Routes.registered_session.
  destruct (Hdef o) as [g ->]. unfold Routes.handleSessionRequest.
  destruct (lookup_session h w) as [t| |]; [|discriminate|discriminate].
  destruct (transport_handleRequest _ _ t verb None x w fresh_reply)
    as [[w1 r1] threw] eqn:E.
  pose proof (handleRequest_payload (Routes.hooks (Some g)) (Some g) t verb None x w
                fresh_reply) as Hp.
  rewrite E in Hp. simpl in Hp.
  destruct threw; simpl; rewrite Hp; discriminate.
Qed.

(** With [sessionIdGenerator: undefined] a GET without a session header is
    answered 400 by the handler [registerMcpRoutes] registers. *)
Lemma routes_undefined_generator_get randomUUID rt js es x :
  (Routes.registered_session randomUUID
     (Some (Routes.mkOptions rt (Routes.given None) js es)) GET None x initial).1.2
  = reply_send 400 (PlainText "Invalid or missing session ID") fresh_reply.
Proof. reflexivity. Qed.

(** ** The heap of transports *)

Lemma sessionId_of_set_state t s w t' :
  sessionId_of (set_state t s w) t' = sessionId_of w t'.
Proof.
  unfold sessionId_of, set_state. simpl.
  destruct (decide (t = t')) as [->|Hne].
  - rewrite list_lookup_alter_eq. by destruct (heap w !! t').
  - by rewrite list_lookup_alter_ne.
Qed.

Lemma state_of_is_Some w t : is_Some (state_of w t) ↔ is_Some (heap w !! t).
Proof. unfold state_of. by rewrite fmap_is_Some. Qed.

Lemma state_of_set_state_eq t s w :
  is_Some (state_of w t) → state_of (set_state t s w) t = Some s.
Proof.
  intros [tr Htr]%state_of_is_Some. unfold state_of, set_state. simpl.
  by rewrite list_lookup_alter_eq, Htr.
Qed.

Lemma state_of_set_state_ne t s w t' :
  t ≠ t' → state_of (set_state t s w) t' = state_of w t'.
Proof.
  intros Hne. unfold state_of, set_state. simpl. by rewrite list_lookup_alter_ne.
Qed.

Lemma state_of_set_sessionId t sid w t' :
  state_of (set_sessionId t sid w) t' = state_of w t'.
Proof.
  unfold state_of, set_sessionId. simpl.
  destruct (decide (t = t')) as [->|Hne].
  - rewrite list_lookup_alter_eq. by destruct (heap w !! t').
  - by rewrite list_lookup_alter_ne.
Qed.

Lemma sessionId_of_set_sessionId_eq t sid w :
  is_Some (state_of w t) → sessionId_of (set_sessionId t sid w) t = Some sid.
Proof.
  intros [tr Htr]%state_of_is_Some. unfold sessionId_of, set_sessionId. simpl.
  by rewrite list_lookup_alter_eq, Htr.
Qed.

Lemma sessionId_of_set_sessionId_ne t sid w t' :
  t ≠ t' → sessionId_of (set_sessionId t sid w) t' = sessionId_of w t'.
Proof.
  intros Hne. unfold sessionId_of, set_sessionId. simpl.
  by rewrite list_lookup_alter_ne.
Qed.

Lemma sessionId_of_Some_lt w t k : sessionId_of w t = Some k → t < length (heap w).
Proof.
  unfold sessionId_of. destruct (heap w !! t) eqn:E; [|done].
  intros _. by eapply lookup_lt_Some.
Qed.

Lemma new_transport_old w t :
  t < length (heap w) →
  sessionId_of (new_transport w).2 t = sessionId_of w t
  ∧ state_of (new_transport w).2 t = state_of w t.
Proof.
  intros Hlt. unfold sessionId_of, state_of, new_transport. simpl.
  by rewrite lookup_app_l.
Qed.

Lemma new_transport_new w :
  (new_transport w).1 = length (heap w)
  ∧ sessionId_of (new_transport w).2 (length (heap w)) = None
  ∧ state_of (new_transport w).2 (length (heap w)) = Some Uninitialized
  ∧ transportMap (new_transport w).2 = transportMap w
  ∧ issued (new_transport w).2 = issued w.
Proof.
  unfold sessionId_of, state_of, new_transport. simpl.
  rewrite list_lookup_middle; done.
Qed.

Lemma sessionId_of_with_map f w t : sessionId_of (with_map f w) t = sessionId_of w t.
Proof. reflexivity. Qed.

Lemma state_of_with_map f w t : state_of (with_map f w) t = state_of w t.
Proof. reflexivity. Qed.

Lemma state_of_log_close t' w t : state_of (log_close t' w) t = state_of w t.
Proof. reflexivity. Qed.

Lemma state_of_log_handle t' w t : state_of (log_handle t' w) t = state_of w t.
Proof. reflexivity. Qed.

(** ** The invariant [table_wf] under the operations of the registry *)

Lemma table_wf_initial : table_wf initial.
Proof. intros k t Hk. simpl in Hk. by rewrite lookup_empty in Hk. Qed.

(** A world with fewer entries and the same transports under them. *)
Lemma table_wf_frame w w' :
  table_wf w →
  (∀ k t, transportMap w' !! k = Some t →
     transportMap w !! k = Some t
     ∧ sessionId_of w' t = sessionId_of w t ∧ state_of w' t = state_of w t) →
  table_wf w'.
Proof.
  intros Hwf Hsub k t Hk. destruct (Hsub k t Hk) as (Hk0 & -> & ->). by apply Hwf.
Qed.

Lemma table_wf_new_transport w : table_wf w → table_wf (new_transport w).2.
Proof.
  intros Hwf. apply (table_wf_frame w); [done|].
  intros k t Hk. destruct (new_transport_new w) as (_ & _ & _ & Hm & _).
  rewrite Hm in Hk. split; [done|].
  apply new_transport_old. destruct (Hwf k t Hk) as [Hs _].
  by eapply sessionId_of_Some_lt.
Qed.

(** Two keys never share a transport. *)
Lemma table_wf_inj w k1 k2 t :
  table_wf w → transportMap w !! k1 = Some t → transportMap w !! k2 = Some t → k1 = k2.
Proof.
  intros Hwf H1 H2. destruct (Hwf _ _ H1) as [E1 _]. destruct (Hwf _ _ H2) as [E2 _].
  congruence.
Qed.

(** ** The callbacks of registerMcpServer *)

Lemma server_terminate w k t :
  table_wf w → keys_truthy w → transportMap w !! k = Some t →
  transport_terminate Server.hooks t w = with_map (delete k) (set_state t Closed w).
Proof.
  intros Hwf Htr Hk. unfold transport_terminate, fire_close. simpl.
  unfold Server.on_close. rewrite sessionId_of_set_state.
  destruct (Hwf k t Hk) as [-> _]. rewrite (Htr k t Hk).
  unfold property. simpl. by rewrite Hk.
Qed.

Lemma server_close w k t o :
  table_wf w → keys_truthy w → transportMap w !! k = Some t →
  transport_close Server.hooks t o w
  = match o with
    | CloseOk => (with_map (delete k) (set_state t Closed (log_close t w)), false)
    | CloseFails true => (with_map (delete k) (set_state t Closed (log_close t w)), true)
    | CloseFails false => (log_close t w, true)
    end.
Proof.
  intros Hwf Htr Hk. unfold transport_close.
  assert (state_of (log_close t w) t = Some Active) as ->.
  { destruct (Hwf k t Hk) as [_ Hst]. exact Hst. }
  assert (Hterm : transport_terminate Server.hooks t (log_close t w)
                  = with_map (delete k) (set_state t Closed (log_close t w))).
  { by apply server_terminate. }
  destruct o as [|[]]; by rewrite ?Hterm.
Qed.

Lemma table_wf_closed w k t :
  table_wf w → transportMap w !! k = Some t →
  table_wf (with_map (delete k) (set_state t Closed w)).
Proof.
  intros Hwf Hk. apply (table_wf_frame w); [done|].
  intros k' t' Hk'. simpl in Hk'. apply lookup_delete_Some in Hk' as [Hne Hk'].
  split; [done|].
  rewrite sessionId_of_with_map, state_of_with_map, sessionId_of_set_state.
  split; [done|].
  apply state_of_set_state_ne. intros ->. apply Hne.
  by eapply table_wf_inj.
Qed.

Lemma server_initialize_shape g t w :
  transport_initialize Server.hooks (Some g) t w
  = set_state t Active
      (if truthy_string (g (issued w))
       then with_map (<[g (issued w) := t]>) (set_sessionId t (g (issued w)) (count_issue w))
       else set_sessionId t (g (issued w)) (count_issue w)).
Proof. reflexivity. Qed.

Lemma server_initialize_wf gen t w :
  table_wf w → keys_truthy w → state_of w t = Some Uninitialized →
  table_wf (transport_initialize Server.hooks gen t w)
  ∧ keys_truthy (transport_initialize Server.hooks gen t w).
Proof.
  intros Hwf Htr Hst.
  assert (Hfresh : ∀ k, transportMap w !! k ≠ Some t).
  { intros k Hk. destruct (Hwf k t Hk) as [_ Ha]. congruence. }
  assert (Hex : is_Some (state_of w t)) by (rewrite Hst; eauto).
  assert (Hold : ∀ k t' sid, transportMap w !! k = Some t' →
            sessionId_of (set_state t Active (set_sessionId t sid (count_issue w))) t'
              = Some k
            ∧ state_of (set_state t Active (set_sessionId t sid (count_issue w))) t'
              = Some Active).
  { intros k t' sid Hk.
    assert (t ≠ t') by (intros ->; by eapply Hfresh).
    rewrite sessionId_of_set_state, state_of_set_state_ne by done.
    rewrite sessionId_of_set_sessionId_ne, state_of_set_sessionId by done.
    by apply Hwf. }
  destruct gen as [g|].
  - rewrite server_initialize_shape. set (sid := g (issued w)).
    destruct (truthy_string sid) eqn:Hsid.
    + split.
      * intros k t' Hk. simpl in Hk. apply lookup_insert_Some in Hk
          as [[<- <-] | [Hne Hk]].
        -- split.
           ++ rewrite sessionId_of_set_state, sessionId_of_with_map.
              by apply sessionId_of_set_sessionId_eq.
           ++ apply state_of_set_state_eq.
              by rewrite state_of_with_map, state_of_set_sessionId.
        -- by apply (Hold k t' sid).
      * intros k t' Hk. simpl in Hk. apply lookup_insert_Some in Hk
          as [[<- <-] | [Hne Hk]]; [done|]. by eapply Htr.
    + split.
      * intros k t' Hk. by apply (Hold k t' sid).
      * intros k t' Hk. by eapply Htr.
  - simpl. split.
    + intros k t' Hk. simpl in Hk.
      assert (t ≠ t') by (intros ->; by eapply Hfresh).
      rewrite sessionId_of_set_state, state_of_set_state_ne by done.
      by apply Hwf.
    + intros k t' Hk. by eapply Htr.
Qed.

(** ** The worlds the handlers of registerMcpServer reach *)

Lemma server_post_world gen h b e w :
  table_wf w →
  (Server.post_handler gen h b e w).1
  = match lookup_session h w with
    | Own t => log_handle t w
    | Inherited => w
    | Missing =>
        if negb (truthy h) && isInitializeRequest b then
          if Server.factory_throws e || Server.connect_throws e
          then (new_transport w).2
          else transport_initialize Server.hooks gen (length (heap w))
                 (log_handle (length (heap w)) (new_transport w).2)
        else w
    end.
Proof.
  intros Hwf. unfold Server.post_handler.
  destruct (lookup_session h w) as [t| |] eqn:Hl.
  - apply lookup_session_Own in Hl as (sid & -> & _ & Hk).
    destruct (Hwf sid t Hk) as [_ Hst].
    unfold Server.handleFastifyRequest, transport_handleRequest. simpl.
    change (state_of (log_handle t w) t) with (state_of w t). by rewrite Hst.
  - done.
  - destruct (negb (truthy h) && isInitializeRequest b) eqn:Hc; [|done].
    apply andb_true_iff in Hc as [_ Hb].
    destruct (new_transport_new w) as (Hn & _ & Hst & _).
    destruct (new_transport w) as [t w1] eqn:Hnew. simpl in Hn, Hst. subst t.
    destruct (Server.factory_throws e || Server.connect_throws e); [done|].
    unfold Server.handleFastifyRequest, transport_handleRequest. simpl.
    change (state_of (log_handle (length (heap w)) w1) (length (heap w)))
      with (state_of w1 (length (heap w))).
    by rewrite Hst, Hb.
Qed.

Lemma server_get_world gen h x w :
  (Server.get_handler gen h x w).1
  = match lookup_session h w with
    | Own t => log_handle t w
    | _ => w
    end.
Proof.
  unfold Server.get_handler. destruct (lookup_session h w) as [t| |]; [|done|done].
  unfold transport_handleRequest. simpl. by destruct (x_throws x).
Qed.

Lemma server_delete_world h o w :
  table_wf w → keys_truthy w →
  (Server.delete_handler h o w).1
  = match lookup_session h w, o with
    | Own t, CloseFails false => log_close t w
    | Own t, _ =>
        with_map (delete (default EmptyString h)) (set_state t Closed (log_close t w))
    | _, _ => w
    end.
Proof.
  intros Hwf Htr. unfold Server.delete_handler, lookup_session, property.
  destruct h as [sid|]; [|done]. destruct (truthy_string sid); [|done].
  destruct (transportMap w !! sid) as [t|] eqn:Hk; [|by destruct (inherited sid)].
  rewrite (server_close w sid t o Hwf Htr Hk). simpl.
  destruct o as [|[]]; simpl; try done.
  unfold with_map. simpl. by rewrite delete_delete_eq.
Qed.

Lemma keys_truthy_sub w w' :
  keys_truthy w →
  (∀ k t, transportMap w' !! k = Some t → transportMap w !! k = Some t) →
  keys_truthy w'.
Proof. intros Htr Hsub k t Hk. eapply Htr, Hsub, Hk. Qed.

Lemma keys_truthy_initial : keys_truthy initial.
Proof. intros k t Hk. simpl in Hk. by rewrite lookup_empty in Hk. Qed.

Lemma server_handle_wf gen rq w :
  table_wf w → keys_truthy w →
  table_wf (Server.handle gen rq w).1 ∧ keys_truthy (Server.handle gen rq w).1.
Proof.
  intros Hwf Htr. destruct rq as [h b e | h x | h o]; simpl.
  - rewrite server_post_world by done.
    destruct (lookup_session h w) as [t| |]; [done|done|].
    destruct (negb (truthy h) && isInitializeRequest b); [|done].
    destruct (Server.factory_throws e || Server.connect_throws e).
    + split; [by apply table_wf_new_transport|].
      eapply keys_truthy_sub; [exact Htr|]. intros k t Hk. exact Hk.
    + apply server_initialize_wf.
      * by apply (table_wf_new_transport w).
      * eapply keys_truthy_sub; [exact Htr|]. intros k t Hk. exact Hk.
      * apply (new_transport_new w).
  - rewrite server_get_world. by destruct (lookup_session h w).
  - rewrite server_delete_world by done.
    destruct (lookup_session h w) as [t| |] eqn:Hl; [|done|done].
    apply lookup_session_Own in Hl as (sid & -> & _ & Hk). simpl.
    assert (table_wf (with_map (delete sid) (set_state t Closed (log_close t w)))
            ∧ keys_truthy (with_map (delete sid) (set_state t Closed (log_close t w)))).
    { split; [by apply (table_wf_closed (log_close t w))|].
      eapply keys_truthy_sub; [exact Htr|]. intros k t' Hk'. simpl in Hk'.
      by apply lookup_delete_Some in Hk' as [_ Hk']. }
    by destruct o as [|[]].
Qed.

(** Where an entry that a request leaves in the table comes from. *)
Lemma server_handle_entry gen rq w k t :
  table_wf w → keys_truthy w →
  transportMap (Server.handle gen rq w).1 !! k = Some t →
  transportMap w !! k = Some t
  ∨ (initializes rq ∧ t = length (heap w)
     ∧ sessionId_of (Server.handle gen rq w).1 t = Some k
     ∧ ∃ g, gen = Some g ∧ k = g (issued w)).
Proof.
  intros Hwf Htr. destruct rq as [h b e | h x | h o]; simpl.
  - rewrite server_post_world by done.
    destruct (lookup_session h w) as [t'| |] eqn:Hl; [by left|by left|].
    destruct (negb (truthy h) && isInitializeRequest b) eqn:Hc; [|by left].
    destruct (Server.factory_throws e || Server.connect_throws e) eqn:He; [by left|].
    apply andb_true_iff in Hc as [Hh Hb]. apply negb_true_iff in Hh.
    destruct gen as [g|]; [|by left].
    rewrite server_initialize_shape.
    change (issued (log_handle (length (heap w)) (new_transport w).2)) with (issued w).
    destruct (truthy_string (g (issued w))) eqn:Hsid; [|by left].
    simpl. intros [[<- <-] | [Hne Hk]]%lookup_insert_Some; [|by left].
    right. split; [by exists h, b, e|]. split; [done|]. split; [|by exists g].
    rewrite sessionId_of_set_state, sessionId_of_with_map.
    apply sessionId_of_set_sessionId_eq.
    destruct (new_transport_new w) as (_ & _ & Hst & _).
    change (is_Some (state_of (new_transport w).2 (length (heap w)))).
    rewrite Hst. eauto.
  - rewrite server_get_world. destruct (lookup_session h w); by left.
  - rewrite server_delete_world by done.
    destruct (lookup_session h w) as [t'| |]; [|by left|by left].
    destruct o as [|[]]; simpl; try by left.
    + intros [_ Hk]%lookup_delete_Some. by left.
    + intros [_ Hk]%lookup_delete_Some. by left.
Qed.


Lemma server_on_close_issued t w : issued (Server.on_close t w) = issued w.
Proof.
  unfold Server.on_close. destruct (sessionId_of w t) as [s|]; [|done].
  destruct (truthy_string s); [|done]. by destruct (property w s).
Qed.

Lemma server_close_issued t o w :
  issued (transport_close Server.hooks t o w).1 = issued w.
Proof.
  unfold transport_close, transport_terminate, fire_close. simpl.
  destruct (state_of (log_close t w) t) as [[]|], o as [|[]]; simpl; try done;
    by rewrite server_on_close_issued.
Qed.

Lemma server_handle_issued gen rq w :
  table_wf w →
  (issued w ≤ issued (Server.handle gen rq w).1)%nat
  ∧ (initializes rq → is_Some gen → issued (Server.handle gen rq w).1 = S (issued w)).
Proof.
  intros Hwf. destruct rq as [h b e | h x | h o]; simpl.
  - rewrite server_post_world by done. split.
    + destruct (lookup_session h w); [done|done|].
      destruct (negb (truthy h) && isInitializeRequest b); [|done].
      destruct (Server.factory_throws e || Server.connect_throws e); [done|].
      destruct gen as [g|]; [|done]. rewrite server_initialize_shape.
      destruct (truthy_string _); simpl; lia.
    + intros (h' & b' & e' & [= <- <- <-] & Hh & Hb & He) [g ->].
      rewrite (lookup_session_falsy _ _ Hh), Hh, Hb, He. cbn [negb andb].
      rewrite server_initialize_shape. by destruct (truthy_string _).
  - rewrite server_get_world. split.
    + by destruct (lookup_session h w).
    + intros (h' & b' & e' & [=] & _).
  - split.
    + unfold Server.delete_handler. destruct h as [sid|]; [|done].
      destruct (truthy_string sid); [|done].
      destruct (property w sid) as [t| |]; [|done|done].
      pose proof (server_close_issued t o w) as Hi.
      destruct (transport_close Server.hooks t o w) as [w1 []]; simpl in *; lia.
    + intros (h' & b' & e' & [=] & _).
Qed.

(** ** The onClose hook of registerMcpServer *)

Lemma shutdown_loop_cons faults k rest w :
  Server.shutdown_loop faults (k :: rest) w
  = Server.shutdown_loop faults rest (shutdown_visit faults k w).
Proof.
  simpl. unfold shutdown_visit. destruct (transportMap w !! k) as [t|]; [|done].
  by destruct (transport_close Server.hooks t (faults k) w) as [w1 []].
Qed.

Lemma shutdown_visit_shape faults k w :
  table_wf w → keys_truthy w →
  shutdown_visit faults k w
  = match transportMap w !! k with
    | None => w
    | Some t =>
        if fails_early (faults k) then log_close t w
        else with_map (delete k) (set_state t Closed (log_close t w))
    end.
Proof.
  intros Hwf Htr. unfold shutdown_visit.
  destruct (transportMap w !! k) as [t|] eqn:Hk; [|done].
  rewrite (server_close w k t (faults k) Hwf Htr Hk).
  destruct (faults k) as [|[]]; simpl; try done.
  unfold with_map. simpl. by rewrite delete_delete_eq.
Qed.

Lemma state_closed_set_state t w t' :
  state_of w t' = Some Closed → state_of (set_state t Closed w) t' = Some Closed.
Proof.
  intros Hst. destruct (decide (t = t')) as [->|Hne].
  - apply state_of_set_state_eq. rewrite Hst. eauto.
  - by rewrite state_of_set_state_ne.
Qed.

Lemma shutdown_visit_facts faults k w :
  table_wf w → keys_truthy w →
  let w' := shutdown_visit faults k w in
  table_wf w' ∧ keys_truthy w'
  ∧ transportMap w' = (if fails_early (faults k) then transportMap w
                       else delete k (transportMap w))
  ∧ closeLog w' = match transportMap w !! k with
                  | Some t => t :: closeLog w
                  | None => closeLog w
                  end
  ∧ (∀ t, transportMap w !! k = Some t → fails_early (faults k) = false →
       state_of w' t = Some Closed)
  ∧ (∀ t, state_of w t = Some Closed → state_of w' t = Some Closed)
  ∧ issued w' = issued w ∧ handleLog w' = handleLog w.
Proof.
  intros Hwf Htr. simpl. rewrite shutdown_visit_shape by done.
  destruct (transportMap w !! k) as [t|] eqn:Hk.
  - destruct (fails_early (faults k)) eqn:Hf.
    + split; [done|]. split; [done|]. split; [done|]. split; [done|].
      split; [discriminate|]. done.
    + split; [by apply (table_wf_closed (log_close t w))|].
      split.
      { eapply keys_truthy_sub; [exact Htr|]. intros k' t' Hk'. simpl in Hk'.
        by apply lookup_delete_Some in Hk' as [_ Hk']. }
      split; [done|]. split; [done|]. split.
      { intros t' [= <-] _. rewrite state_of_with_map.
        apply state_of_set_state_eq. rewrite state_of_log_close.
        destruct (Hwf k t Hk) as [_ ->]. eauto. }
      split; [|done].
      intros t' Hst. rewrite state_of_with_map. by apply state_closed_set_state.
  - split; [done|]. split; [done|]. split.
    { destruct (fails_early (faults k)); [done|]. by rewrite delete_id. }
    split; [done|]. split; [discriminate|]. done.
Qed.

Lemma shutdown_loop_facts faults keys :
  ∀ w, table_wf w → keys_truthy w → NoDup keys →
  let w' := Server.shutdown_loop faults keys w in
  table_wf w' ∧ keys_truthy w'
  ∧ (∀ k t, transportMap w' !! k = Some t ↔
       transportMap w !! k = Some t ∧ (k ∈ keys → fails_early (faults k) = true))
  ∧ (∃ called, closeLog w' = (called ++ closeLog w)%list
       ∧ (∀ k t, transportMap w !! k = Some t → k ∈ keys → t ∈ called)
       ∧ (∀ t, t ∈ called → ∃ k, k ∈ keys ∧ transportMap w !! k = Some t))
  ∧ (∀ k t, transportMap w !! k = Some t → transportMap w' !! k = None →
       state_of w' t = Some Closed)
  ∧ (∀ t, state_of w t = Some Closed → state_of w' t = Some Closed)
  ∧ issued w' = issued w ∧ handleLog w' = handleLog w.
Proof.
  induction keys as [|k rest IH]; intros w Hwf Htr Hnd.
  - simpl. split; [done|]. split; [done|]. split.
    { intros k t. split.
      - intros Hk. split; [done|]. intros Hin. by apply elem_of_nil in Hin.
      - by intros [Hk _]. }
    split.
    { exists []. split; [done|]. split.
      - intros k t _ Hin. by apply elem_of_nil in Hin.
      - intros t Hin. by apply elem_of_nil in Hin. }
    split.
    { intros k t Hk Hk'. congruence. }
    done.
  - apply NoDup_cons in Hnd as [Hnotin Hnd].
    cbv zeta. rewrite shutdown_loop_cons.
    destruct (shutdown_visit_facts faults k w Hwf Htr)
      as (Hwf1 & Htr1 & Hmap1 & Hlog1 & Hcl1 & Hpers1 & Hiss1 & Hh1).
    set (w1 := shutdown_visit faults k w) in *.
    destruct (IH w1 Hwf1 Htr1 Hnd)
      as (Hwf2 & Htr2 & Hmap2 & (called & Hlog2 & Hin2 & Hfrom2)
          & Hcl2 & Hpers2 & Hiss2 & Hh2).
    set (w2 := Server.shutdown_loop faults rest w1) in *.
    assert (Hentry1 : ∀ k' t, transportMap w1 !! k' = Some t ↔
              transportMap w !! k' = Some t
              ∧ (k' = k → fails_early (faults k) = true)).
    { intros k' t. rewrite Hmap1. destruct (fails_early (faults k)) eqn:Hf.
      - split; [by intros ?|by intros [? _]].
      - rewrite lookup_delete_Some. split.
        + intros [Hne Hk]. split; [done|]. by intros ->.
        + intros [Hk Himp]. split; [|done]. intros ->. by specialize (Himp eq_refl). }
    assert (Hrest1 : ∀ k' t, k' ∈ rest →
              transportMap w !! k' = Some t → transportMap w1 !! k' = Some t).
    { intros k' t Hin Hk. apply Hentry1. split; [done|]. intros ->. done. }
    split; [done|]. split; [done|]. split.
    { intros k' t. rewrite Hmap2, Hentry1. split.
      - intros [[Hk Hkk] Hrest]. split; [done|].
        intros [->|Hin]%elem_of_cons; eauto.
      - intros [Hk Hall]. split; [split; [done|]|].
        + intros ->. apply Hall, list_elem_of_here.
        + intros Hin. by apply Hall, list_elem_of_further. }
    split.
    { exists (called ++ match transportMap w !! k with
                        | Some t => [t]
                        | None => []
                        end)%list.
      split.
      { rewrite Hlog2, Hlog1. rewrite <- app_assoc.
        by destruct (transportMap w !! k). }
      split.
      - intros k' t Hk [->|Hin]%elem_of_cons.
        + rewrite Hk. apply elem_of_app. right. apply list_elem_of_here.
        + apply elem_of_app. left. apply (Hin2 k'); [|done]. by apply Hrest1.
      - intros t [Hin|Hin]%elem_of_app.
        + destruct (Hfrom2 t Hin) as (k' & Hk'in & Hk').
          exists k'. split; [by apply list_elem_of_further|].
          by apply Hentry1 in Hk' as [Hk' _].
        + destruct (transportMap w !! k) as [t'|] eqn:Hk.
          * apply list_elem_of_singleton in Hin as ->.
            exists k. split; [apply list_elem_of_here|done].
          * by apply elem_of_nil in Hin. }
    split.
    { intros k' t Hk Hnone.
      destruct (transportMap w1 !! k') as [t'|] eqn:Hk1.
      - apply Hentry1 in Hk1 as Hk1'. destruct Hk1' as [Hk1' _].
        assert (t' = t) as -> by congruence. by eapply Hcl2.
      - destruct (decide (k' = k)) as [->|Hne].
        + apply Hpers2, Hcl1; [done|].
          destruct (fails_early (faults k)) eqn:Hf; [|done]. exfalso.
          assert (transportMap w1 !! k = Some t) as Hc by (by apply Hentry1).
          congruence.
        + exfalso. assert (transportMap w1 !! k' = Some t) as Hc.
          { apply Hentry1. split; [done|]. by intros ?. }
          congruence. }
    split; [by intros t Ht; apply Hpers2, Hpers1|].
    split; congruence.
Qed.

(** ** The enumeration of the keys *)

Lemma for_in_Permutation rank w :
  Server.for_in rank w ≡ₚ (map_to_list (transportMap w)).*1.
Proof. apply merge_sort_Permutation. Qed.

Lemma for_in_NoDup rank w : NoDup (Server.for_in rank w).
Proof. rewrite for_in_Permutation. apply NoDup_fst_map_to_list. Qed.

Lemma for_in_keys rank w k :
  k ∈ Server.for_in rank w ↔ is_Some (transportMap w !! k).
Proof.
  rewrite for_in_Permutation, list_elem_of_fmap. split.
  - intros ([k' t] & -> & Hin). apply elem_of_map_to_list in Hin. eauto.
  - intros [t Hk]. exists (k, t). split; [done|]. by apply elem_of_map_to_list.
Qed.

(** ** Reachable worlds of registerMcpServer *)

Lemma server_step_wf gen ev w :
  table_wf w → keys_truthy w →
  table_wf (Server.step gen w ev) ∧ keys_truthy (Server.step gen w ev).
Proof.
  intros Hwf Htr. destruct ev as [rq | rank faults]; simpl.
  - by apply server_handle_wf.
  - unfold Server.onClose.
    destruct (shutdown_loop_facts faults (Server.for_in rank w) w Hwf Htr
                  (for_in_NoDup rank w)) as (H1 & H2 & _).
    done.
Qed.

Lemma server_run_wf gen evs :
  ∀ w, table_wf w → keys_truthy w →
  table_wf (Server.run gen w evs) ∧ keys_truthy (Server.run gen w evs).
Proof.
  induction evs as [|ev evs IH]; intros w Hwf Htr; [done|].
  simpl. destruct (server_step_wf gen ev w Hwf Htr) as [H1 H2]. by apply IH.
Qed.

Lemma server_reachable_wf gen evs :
  table_wf (Server.run gen initial evs) ∧ keys_truthy (Server.run gen initial evs).
Proof. apply server_run_wf; [apply table_wf_initial | apply keys_truthy_initial]. Qed.

Lemma fails_early_true o : fails_early o = true ↔ o = CloseFails false.
Proof. destruct o as [|[]]; simpl; split; congruence. Qed.

(** ** C4: shutdown *)

(** C4, as amended.  Let the generator never return ["__proto__"].  In a
    world the registry can reach, let the [onClose] hook enumerate the keys
    of the table in any order.  It calls [close()] on the transport of every
    entry, and on no other transport, however the individual calls end: a
    close that fails does not keep the others from being closed.  Afterwards
    the table holds exactly the entries whose close failed before the
    transport was closed; it is empty when no close fails that way. *)
Theorem shutdown_closes_every_transport gen evs faults keys :
  never_proto gen →
  NoDup keys →
  (∀ k, k ∈ keys ↔ is_Some (transportMap (Server.run gen initial evs) !! k)) →
  let w := Server.run gen initial evs in
  let w' := Server.shutdown_loop faults keys w in
  (∃ called, closeLog w' = (called ++ closeLog w)%list
     ∧ ∀ t, t ∈ called ↔ ∃ k, transportMap w !! k = Some t)
  ∧ (∀ k t, transportMap w' !! k = Some t ↔
       transportMap w !! k = Some t ∧ faults k = CloseFails false)
  ∧ ((∀ k, is_Some (transportMap w !! k) → faults k ≠ CloseFails false) →
     transportMap w' = ∅).
Proof.
  intros _ Hnd Hkeys w w'.
  destruct (server_reachable_wf gen evs) as [Hwf Htr]. fold w in Hwf, Htr, Hkeys.
  destruct (shutdown_loop_facts faults keys w Hwf Htr Hnd)
    as (_ & _ & Hmap & (called & Hlog & Hin & Hfrom) & _).
  fold w' in Hmap, Hlog.
  assert (Hent : ∀ k t, transportMap w' !! k = Some t ↔
            transportMap w !! k = Some t ∧ faults k = CloseFails false).
  { intros k t. rewrite Hmap. split.
    - intros [Hk Hf]. split; [done|]. apply fails_early_true, Hf, Hkeys. eauto.
    - intros [Hk Hf]. split; [done|]. intros _. by apply fails_early_true. }
  split; [|split; [exact Hent|]].
  - exists called. split; [done|]. intros t. split.
    + intros Ht. destruct (Hfrom t Ht) as (k & _ & Hk). eauto.
    + intros [k Hk]. apply (Hin k); [done|]. apply Hkeys. eauto.
  - intros Hok. apply map_eq. intros k. rewrite lookup_empty.
    destruct (transportMap w' !! k) as [t|] eqn:Hk; [|done].
    apply Hent in Hk as [Hk Hf]. exfalso. apply (Hok k); eauto.
Qed.

Lemma one_session_table : transportMap one_session = {[ "session-0" := 0 ]}.
Proof. vm_compute. reflexivity. Qed.

Lemma two_sessions_table :
  transportMap two_sessions = {[ "session-0" := 0; "session-1" := 1 ]}.
Proof. vm_compute. reflexivity. Qed.

Lemma sample_generator_never_proto : never_proto (Some sample_generator).
Proof. intros g n [= <-]. unfold sample_generator. simpl. discriminate. Qed.

Lemma two_sessions_keys k :
  k ∈ ["session-1"; "session-0"] ↔ is_Some (transportMap two_sessions !! k).
Proof.
  rewrite two_sessions_table. split.
  - intros [->|[->|Hin]%elem_of_cons]%elem_of_cons.
    + vm_compute. eauto.
    + vm_compute. eauto.
    + by apply elem_of_nil in Hin.
  - intros [t [[<- _]|[_ [<- _]%lookup_singleton_Some]]%lookup_insert_Some].
    + apply list_elem_of_further, list_elem_of_here.
    + apply list_elem_of_here.
Qed.

Lemma two_sessions_keys_NoDup : NoDup ["session-1"; "session-0"].
Proof.
  apply NoDup_cons. split; [|apply NoDup_singleton].
  intros Hin%list_elem_of_singleton. discriminate Hin.
Qed.

(** Two sessions; the loop meets ["session-1"] first, and its close fails
    before the transport is closed: the transport of ["session-0"] is closed
    all the same, and the table is left with the entry ["session-1"]. *)
Lemma shutdown_closes_every_transport_witness :
  let w := Server.run (Some sample_generator) initial [sample_init; sample_init] in
  let w' := Server.shutdown_loop (fails_for "session-1") ["session-1"; "session-0"] w in
  (∃ called, closeLog w' = (called ++ closeLog w)%list
     ∧ ∀ t, t ∈ called ↔ ∃ k, transportMap w !! k = Some t)
  ∧ (∀ k t, transportMap w' !! k = Some t ↔
       transportMap w !! k = Some t ∧ fails_for "session-1" k = CloseFails false)
  ∧ ((∀ k, is_Some (transportMap w !! k) → fails_for "session-1" k ≠ CloseFails false) →
     transportMap w' = ∅).
Proof.
  apply (shutdown_closes_every_transport (Some sample_generator)
           [sample_init; sample_init] (fails_for "session-1")
           ["session-1"; "session-0"]).
  - exact sample_generator_never_proto.
  - exact two_sessions_keys_NoDup.
  - exact two_sessions_keys.
Defined.

(** What the witness leaves: both transports were closed on, ["session-1"]
    first, and the entry whose close failed is still in the table. *)
Lemma shutdown_with_a_failing_close :
  let w' := Server.shutdown_loop (fails_for "session-1") ["session-1"; "session-0"]
              two_sessions in
  closeLog w' = [0; 1]
  ∧ transportMap w' = {[ "session-1" := 1 ]}
  ∧ state_of w' 0 = Some Closed ∧ state_of w' 1 = Some Active.
Proof. vm_compute. done. Qed.

(** C4, as stated, fails when a close rejects: the entry stays in the table. *)
Lemma shutdown_leaves_failed_entries :
  ¬ (∀ gen evs rank faults,
       transportMap (Server.onClose rank faults (Server.run gen initial evs)) = ∅).
Proof.
  intros H.
  specialize (H (Some sample_generator)
                [Server.Incoming (Server.Post None InitializeMessage
                                    (Server.mkPostEnv false false sample_exchange))]
                (λ _, 0) (λ _, CloseFails false)).
  apply (f_equal (λ m, m !! "session-0")) in H.
  vm_compute in H. discriminate H.
Qed.

(** ** Keys of the table and results of the generator *)

Lemma keys_issued_initial g : keys_issued g initial.
Proof. intros k t Hk. simpl in Hk. by rewrite lookup_empty in Hk. Qed.

Lemma server_step_keys_issued g ev w :
  table_wf w → keys_truthy w → keys_issued g w →
  keys_issued g (Server.step (Some g) w ev).
Proof.
  intros Hwf Htr Hki k t Hk. destruct ev as [rq | rank faults]; simpl in Hk.
  - destruct (server_handle_issued (Some g) rq w Hwf) as [Hle Hinc].
    destruct (server_handle_entry (Some g) rq w k t Hwf Htr Hk)
      as [Hold | (Hinit & _ & _ & g' & [= <-] & ->)].
    + destruct (Hki k t Hold) as (i & Hi & ->). exists i. simpl. split; [lia|done].
    + exists (issued w). simpl. rewrite (Hinc Hinit) by eauto. split; [lia|done].
  - unfold Server.onClose in Hk.
    destruct (shutdown_loop_facts faults (Server.for_in rank w) w Hwf Htr
                  (for_in_NoDup rank w)) as (_ & _ & Hmap & _ & _ & _ & Hiss & _).
    apply Hmap in Hk as [Hk _]. destruct (Hki k t Hk) as (i & Hi & ->).
    exists i. simpl. unfold Server.onClose. rewrite Hiss. done.
Qed.

Lemma server_run_keys_issued g evs :
  ∀ w, table_wf w → keys_truthy w → keys_issued g w →
  keys_issued g (Server.run (Some g) w evs).
Proof.
  induction evs as [|ev evs IH]; intros w Hwf Htr Hki; [done|].
  simpl. destruct (server_step_wf (Some g) ev w Hwf Htr) as [H1 H2].
  apply IH; [done|done|]. by apply server_step_keys_issued.
Qed.

Lemma server_initialize_sessionId g t w :
  is_Some (state_of w t) →
  sessionId_of (transport_initialize Server.hooks (Some g) t w) t = Some (g (issued w)).
Proof.
  intros Hex. rewrite server_initialize_shape, sessionId_of_set_state.
  destruct (truthy_string (g (issued w))).
  - rewrite sessionId_of_with_map. by apply sessionId_of_set_sessionId_eq.
  - by apply sessionId_of_set_sessionId_eq.
Qed.

Lemma transport_respond_fresh_header x sid s :
  sessionHeader (transport_respond x sid fresh_reply) = Some s → sid = Some s.
Proof.
  unfold transport_respond, raw_writeHead, raw_end.
  destruct (x_status x), (x_ends x); simpl; congruence.
Qed.

Lemma post_catch_header r :
  sessionHeader (Server.post_catch r) = sessionHeader r.
Proof.
  unfold Server.post_catch, reply_send.
  destruct (sent r); [done|]. by destruct (statusLine r).
Qed.

(** The session header of the reply to an initialization POST, when there is
    one, is the result of the call the new transport made to the generator. *)
Lemma server_init_post_header g h b e w s :
  truthy h = false → isInitializeRequest b = true →
  sessionHeader (Server.post_handler (Some g) h b e w).2 = Some s →
  s = g (issued w).
Proof.
  intros Hh Hb. unfold Server.post_handler.
  rewrite (lookup_session_falsy _ _ Hh), Hh, Hb. cbn [negb andb].
  destruct (new_transport_new w) as (Hn & _ & Hst & _).
  destruct (new_transport w) as [t w1] eqn:Hnew. simpl in Hn, Hst. subst t.
  destruct (Server.factory_throws e || Server.connect_throws e); [discriminate|].
  destruct (Server.handleFastifyRequest (Some g) (length (heap w)) b
              (Server.exchange e) w1 fresh_reply) as [[w2 r2] threw] eqn:E.
  assert (Hr2 : sessionHeader r2 = Some s → s = g (issued w)).
  { unfold Server.handleFastifyRequest, transport_handleRequest in E.
    rewrite state_of_log_handle, Hst, Hb in E.
    injection E as <- <- _.
    intros Hs%transport_respond_fresh_header.
    change (sessionId_of
              (transport_initialize Server.hooks (Some g) (length (heap w))
                 (log_handle (length (heap w)) w1)) (length (heap w)) = Some s) in Hs.
    rewrite server_initialize_sessionId in Hs.
    - assert (issued w1 = issued w) as Hi.
      { apply (f_equal snd) in Hnew. simpl in Hnew. by rewrite <- Hnew. }
      simpl in Hs. rewrite Hi in Hs. congruence.
    - rewrite state_of_log_handle, Hst. eauto. }
  simpl. destruct threw; [rewrite post_catch_header|]; exact Hr2.
Qed.

Lemma sample_generator_inj : Inj (=) (=) sample_generator.
Proof.
  intros x y H. unfold sample_generator in H.
  apply (inj pretty). by apply (inj (String.app "session-")).
Qed.

(** ** C7: the identifier surfaced by an initialization POST *)

(** C7.  Let the generator return a different value at every call.  When an
    initialization POST that bears no identifier is answered with a session
    header, the string in that header is the identifier of the transport the
    request created, and it differs from every key the table had before the
    request and from the key of every other entry the table has after it. *)
Theorem init_session_header_is_fresh g evs h b e s :
  Inj (=) (=) g →
  truthy h = false → isInitializeRequest b = true →
  sessionHeader
    (Server.post_handler (Some g) h b e (Server.run (Some g) initial evs)).2 = Some s →
  let w := Server.run (Some g) initial evs in
  let w' := (Server.post_handler (Some g) h b e w).1 in
  (∀ k t, transportMap w !! k = Some t → k ≠ s)
  ∧ (∀ k t, transportMap w' !! k = Some t → t ≠ length (heap w) → k ≠ s)
  ∧ sessionId_of w' (length (heap w)) = Some s.
Proof.
  intros Hinj Hh Hb Hs w w'.
  assert (He : Server.factory_throws e || Server.connect_throws e = false).
  { destruct (Server.factory_throws e || Server.connect_throws e) eqn:He; [|done].
    unfold Server.post_handler in Hs.
    rewrite (lookup_session_falsy _ _ Hh), Hh, Hb in Hs. cbn [negb andb] in Hs.
    destruct (new_transport _) as [t w1]. rewrite He in Hs. discriminate Hs. }
  destruct (server_reachable_wf (Some g) evs) as [Hwf Htr].
  pose proof (server_run_keys_issued g evs initial table_wf_initial
                keys_truthy_initial (keys_issued_initial g)) as Hki.
  fold w in Hwf, Htr, Hki, Hs.
  apply server_init_post_header in Hs as ->; [|done|done].
  assert (Hold : ∀ k t, transportMap w !! k = Some t → k ≠ g (issued w)).
  { intros k t Hk Heq. destruct (Hki k t Hk) as (i & Hi & ->).
    apply Hinj in Heq. lia. }
  split; [exact Hold|]. split.
  - intros k t Hk Ht.
    destruct (server_handle_entry (Some g) (Server.Post h b e) w k t Hwf Htr Hk)
      as [Hk0 | (_ & Hnew & _)]; [by eapply Hold|done].
  - unfold w'. rewrite server_post_world by done.
    rewrite (lookup_session_falsy _ _ Hh), Hh, Hb, He. cbn [negb andb].
    rewrite server_initialize_sessionId.
    + done.
    + rewrite state_of_log_handle.
      destruct (new_transport_new w) as (_ & _ & -> & _). eauto.
Qed.

Lemma init_session_header_is_fresh_witness :
  let w := Server.run (Some sample_generator) initial
             [Server.Incoming (Server.Post None InitializeMessage
                                 (Server.mkPostEnv false false sample_exchange))] in
  let w' := (Server.post_handler (Some sample_generator) None InitializeMessage
               (Server.mkPostEnv false false sample_exchange) w).1 in
  (∀ k t, transportMap w !! k = Some t → k ≠ "session-1")
  ∧ (∀ k t, transportMap w' !! k = Some t → t ≠ length (heap w) → k ≠ "session-1")
  ∧ sessionId_of w' (length (heap w)) = Some "session-1".
Proof.
  apply (init_session_header_is_fresh sample_generator
           [Server.Incoming (Server.Post None InitializeMessage
                               (Server.mkPostEnv false false sample_exchange))]
           None InitializeMessage (Server.mkPostEnv false false sample_exchange)
           "session-1").
  - exact sample_generator_inj.
  - reflexivity.
  - reflexivity.
  - vm_compute. reflexivity.
Defined.

(** ** C1: a terminated session stays terminated *)

Lemma server_step_issued gen ev w :
  table_wf w → keys_truthy w → (issued w ≤ issued (Server.step gen w ev))%nat.
Proof.
  intros Hwf Htr. destruct ev as [rq | rank faults]; simpl.
  - by apply server_handle_issued.
  - unfold Server.onClose.
    destruct (shutdown_loop_facts faults (Server.for_in rank w) w Hwf Htr
                  (for_in_NoDup rank w)) as (_ & _ & _ & _ & _ & _ & Hiss & _).
    by rewrite Hiss.
Qed.

Lemma server_step_retired gen S ev w :
  (∀ g, gen = Some g → Inj (=) (=) g) →
  table_wf w → keys_truthy w → retired gen S w →
  retired gen S (Server.step gen w ev).
Proof.
  intros Hinj Hwf Htr [Hnone Hiss].
  pose proof (server_step_issued gen ev w Hwf Htr) as Hle. split.
  - destruct (transportMap (Server.step gen w ev) !! S) as [t|] eqn:Hk; [|done].
    exfalso. destruct ev as [rq | rank faults]; simpl in Hk.
    + destruct (server_handle_entry gen rq w S t Hwf Htr Hk)
        as [Hold | (_ & _ & _ & g & Hg & HS)]; [congruence|].
      destruct (Hiss g Hg) as (i & Hi & HSi).
      assert (i = issued w) by (apply (Hinj g Hg); congruence). lia.
    + unfold Server.onClose in Hk.
      destruct (shutdown_loop_facts faults (Server.for_in rank w) w Hwf Htr
                  (for_in_NoDup rank w)) as (_ & _ & Hmap & _).
      apply Hmap in Hk as [Hk _]. congruence.
  - intros g Hg. destruct (Hiss g Hg) as (i & Hi & HS). exists i. split; [lia|done].
Qed.

Lemma server_run_retired gen S evs :
  (∀ g, gen = Some g → Inj (=) (=) g) →
  ∀ w, table_wf w → keys_truthy w → retired gen S w →
  table_wf (Server.run gen w evs) ∧ keys_truthy (Server.run gen w evs)
  ∧ retired gen S (Server.run gen w evs).
Proof.
  intros Hinj. induction evs as [|ev evs IH]; intros w Hwf Htr Hret; [done|].
  simpl. destruct (server_step_wf gen ev w Hwf Htr) as [H1 H2].
  apply IH; [done|done|]. by apply server_step_retired.
Qed.

(** A request that bears an identifier that names nothing in the table. *)
Lemma server_unknown_session gen S rq w :
  truthy_string S = true → transportMap w !! S = None → inherited S = false →
  bears S rq →
  Server.handle gen rq w
  = (w, match rq with
        | Server.Post _ _ _ => reply_send 400 no_valid_session fresh_reply
        | _ => reply_send 400 (PlainText "Invalid or missing session ID") fresh_reply
        end).
Proof.
  intros HS Hnone Hi Hb. unfold bears in Hb.
  destruct rq as [h b e | h x | h o]; simpl in Hb; subst h; simpl.
  - unfold Server.post_handler. rewrite (lookup_session_unknown _ _ Hnone Hi).
    simpl. by rewrite HS.
  - unfold Server.get_handler. by rewrite (lookup_session_unknown _ _ Hnone Hi).
  - unfold Server.delete_handler, property. by rewrite HS, Hnone, Hi.
Qed.

(** What a DELETE answered with 200 did. *)
Lemma server_delete_200 h o w :
  table_wf w → keys_truthy w →
  statusLine (Server.delete_handler h o w).2 = Some 200 →
  ∃ S t, h = Some S ∧ truthy_string S = true ∧ transportMap w !! S = Some t
         ∧ o = CloseOk
         ∧ (Server.delete_handler h o w).1
           = with_map (delete S) (set_state t Closed (log_close t w)).
Proof.
  intros Hwf Htr Hs.
  pose proof (server_delete_world h o w Hwf Htr) as Hw.
  unfold Server.delete_handler in Hs. unfold lookup_session in Hw.
  unfold property in Hs, Hw.
  destruct h as [S|]; [|discriminate].
  destruct (truthy_string S) eqn:HS; [|discriminate].
  destruct (transportMap w !! S) as [t|] eqn:Hk;
    [|destruct (inherited S); discriminate].
  rewrite (server_close w S t o Hwf Htr Hk) in Hs.
  destruct o as [|[]]; try discriminate.
  exists S, t. done.
Qed.

(** What the code does for the identifiers the table does not inherit.  Let
    the generator, if there is one, return a different value at every call
    and never ["__proto__"], and let [S] be no name of a member of
    [Object.prototype].  Once the DELETE handler of [registerMcpServer] has
    answered a DELETE bearing [S] with status 200, every later request
    bearing [S], after any number of other requests and shutdowns, is
    answered with status 400, by the envelope of code -32000 on POST and by
    the text "Invalid or missing session ID" on GET and DELETE, and leaves
    the world as it was: the request is handed to no transport. *)
Lemma deleted_session_stays_invalid gen evs S o evs' rq :
  (∀ g, gen = Some g → Inj (=) (=) g) →
  never_proto gen →
  inherited S = false →
  statusLine (Server.delete_handler (Some S) o (Server.run gen initial evs)).2
    = Some 200 →
  bears S rq →
  let w1 := (Server.delete_handler (Some S) o (Server.run gen initial evs)).1 in
  let w2 := Server.run gen w1 evs' in
  Server.handle gen rq w2
  = (w2, match rq with
         | Server.Post _ _ _ =>
             mkReply (Some 400) false None
               (JsonRpcError (-32000) "Bad Request: No valid session ID provided")
               400 true false
         | _ =>
             mkReply (Some 400) false None
               (PlainText "Invalid or missing session ID") 400 true false
         end).
Proof.
  intros Hinj _ Hproto Hs Hb w1 w2.
  destruct (server_reachable_wf gen evs) as [Hwf Htr].
  set (w0 := Server.run gen initial evs) in *.
  destruct (server_delete_200 (Some S) o w0 Hwf Htr Hs)
    as (S' & t & [= <-] & HS & Hk & -> & Hw1).
  fold w1 in Hw1.
  destruct (server_step_wf gen (Server.Incoming (Server.Delete (Some S) CloseOk))
              w0 Hwf Htr) as [Hwf1 Htr1].
  change (Server.step gen w0 _) with w1 in Hwf1, Htr1.
  assert (Hret1 : retired gen S w1).
  { split.
    - rewrite Hw1. simpl. apply lookup_delete_eq.
    - intros g ->.
      pose proof (server_run_keys_issued g evs initial table_wf_initial
                    keys_truthy_initial (keys_issued_initial g)) as Hki.
      destruct (Hki S t Hk) as (i & Hi & HSi). exists i. split; [|done].
      rewrite Hw1. exact Hi. }
  destruct (server_run_retired gen S evs' Hinj w1 Hwf1 Htr1 Hret1)
    as (_ & _ & Hnone & _).
  fold w2 in Hnone.
  rewrite (server_unknown_session gen S rq w2 HS Hnone Hproto Hb).
  by destruct rq.
Qed.

Lemma prototype_name_generator_inj : Inj (=) (=) prototype_name_generator.
Proof.
  intros [|x] [|y] H; simpl in H; try done.
  apply (inj (String.app "session-")) in H. by apply (inj pretty) in H.
Qed.

(** ** C1: a terminated session whose identifier the table inherits

    C1 at a failing input.  The generator returns a different identifier at
    every call, the first being "constructor".  An initialization POST opens
    the session "constructor", and a DELETE that bears it is answered 200:
    the key is gone and the transport is [Closed].  The table is an object
    literal, so the name still reads as a member of [Object.prototype]: the
    test [!transportMap[sessionId]] of the handlers does not see that the
    session is gone.  A later GET that bears the identifier is answered 200,
    a later POST or DELETE 500; none of them 400. *)
Theorem terminated_session_named_constructor :
  let gen := Some prototype_name_generator in
  let w0 := Server.run gen initial [sample_init] in
  let w1 := (Server.delete_handler (Some "constructor") CloseOk w0).1 in
  Inj (=) (=) prototype_name_generator
  ∧ never_proto gen
  ∧ transportMap w0 !! "constructor" = Some 0
  ∧ statusLine (Server.delete_handler (Some "constructor") CloseOk w0).2 = Some 200
  ∧ transportMap w1 = ∅
  ∧ state_of w1 0 = Some Closed
  ∧ statusLine (Server.get_handler gen (Some "constructor") sample_exchange w1).2
    = Some 200
  ∧ statusLine (Server.post_handler gen (Some "constructor") OtherMessage
                  (Server.mkPostEnv false false sample_exchange) w1).2 = Some 500
  ∧ statusLine (Server.delete_handler (Some "constructor") CloseOk w1).2 = Some 500
  ∧ handleLog (Server.get_handler gen (Some "constructor") sample_exchange w1).1
    = handleLog w1.
Proof.
  split; [exact prototype_name_generator_inj|]. split.
  { intros g n [= <-]. destruct n; simpl; discriminate. }
  vm_compute. done.
Qed.

(** With a generator that returns an identifier again, a terminated
    identifier is bound to a new transport by a later initialization, and a
    request that bears it is handed to that transport. *)
Lemma reissued_identifier_is_routed :
  let w1 := (Server.delete_handler (Some "s") CloseOk
               (Server.run (Some constant_generator) initial [sample_init])).1 in
  let w2 := Server.run (Some constant_generator) w1 [sample_init] in
  statusLine
    (Server.post_handler (Some constant_generator) (Some "s") OtherMessage
       (Server.mkPostEnv false false sample_exchange) w2).2 = Some 200.
Proof. vm_compute. done. Qed.

(** ** The callbacks and handlers of registerMcpRoutes *)

Lemma routes_initialize_shape g t w :
  transport_initialize (Routes.hooks (Some g)) (Some g) t w
  = set_state t Active
      (with_map (<[g (issued w) := t]>) (set_sessionId t (g (issued w)) (count_issue w))).
Proof. reflexivity. Qed.

Lemma routes_initialize_wf gen t w :
  table_wf w → state_of w t = Some Uninitialized →
  table_wf (transport_initialize (Routes.hooks gen) gen t w).
Proof.
  intros Hwf Hst.
  assert (Hfresh : ∀ k, transportMap w !! k ≠ Some t).
  { intros k Hk. destruct (Hwf k t Hk) as [_ Ha]. congruence. }
  assert (Hex : is_Some (state_of w t)) by (rewrite Hst; eauto).
  destruct gen as [g|].
  - rewrite routes_initialize_shape. set (sid := g (issued w)).
    intros k t' Hk. simpl in Hk.
    apply lookup_insert_Some in Hk as [[<- <-] | [Hne Hk]].
    + split.
      * rewrite sessionId_of_set_state, sessionId_of_with_map.
        by apply sessionId_of_set_sessionId_eq.
      * apply state_of_set_state_eq.
        by rewrite state_of_with_map, state_of_set_sessionId.
    + assert (t ≠ t') by (intros ->; by eapply Hfresh).
      rewrite sessionId_of_set_state, state_of_set_state_ne by done.
      rewrite sessionId_of_with_map, state_of_with_map.
      rewrite sessionId_of_set_sessionId_ne, state_of_set_sessionId by done.
      by apply Hwf.
  - simpl. intros k t' Hk. simpl in Hk.
    assert (t ≠ t') by (intros ->; by eapply Hfresh).
    rewrite sessionId_of_set_state, state_of_set_state_ne by done.
    by apply Hwf.
Qed.

Lemma routes_post_world gen h b e w :
  table_wf w →
  (Routes.post_handler gen h b e w).1.1
  = match lookup_session h w with
    | Own t => log_handle t w
    | Inherited => w
    | Missing =>
        if negb (truthy h) && isInitializeRequest b then
          if Routes.connect_throws e then (new_transport w).2
          else transport_initialize (Routes.hooks gen) gen (length (heap w))
                 (log_handle (length (heap w)) (new_transport w).2)
        else w
    end.
Proof.
  intros Hwf. unfold Routes.post_handler.
  destruct (lookup_session h w) as [t| |] eqn:Hl.
  - apply lookup_session_Own in Hl as (sid & -> & _ & Hk).
    destruct (Hwf sid t Hk) as [_ Hst].
    unfold transport_handleRequest. rewrite state_of_log_handle, Hst.
    by destruct (x_throws _).
  - done.
  - destruct (negb (truthy h) && isInitializeRequest b) eqn:Hc; [|done].
    apply andb_true_iff in Hc as [_ Hb].
    destruct (new_transport_new w) as (Hn & _ & Hst & _).
    destruct (new_transport w) as [t w1] eqn:Hnew. simpl in Hn, Hst. subst t.
    destruct (Routes.connect_throws e); [done|].
    unfold transport_handleRequest. rewrite state_of_log_handle, Hst, Hb.
    by destruct (x_throws _).
Qed.

Lemma routes_session_world g verb h x w :
  table_wf w →
  (Routes.handleSessionRequest (Some g) verb h x w).1.1
  = match lookup_session h w, verb with
    | Own t, DELETE =>
        with_map (delete (default EmptyString h)) (set_state t Closed (log_handle t w))
    | Own t, _ => log_handle t w
    | _, _ => w
    end.
Proof.
  intros Hwf. unfold Routes.handleSessionRequest.
  destruct (lookup_session h w) as [t| |] eqn:Hl; [|by destruct verb|by destruct verb].
  apply lookup_session_Own in Hl as (sid & -> & Htr & Hk).
  destruct (Hwf sid t Hk) as [Hsid Hst].
  unfold transport_handleRequest. rewrite state_of_log_handle, Hst.
  destruct verb; simpl; try by destruct (x_throws _).
  change (sessionId_of (log_handle t w) t) with (sessionId_of w t).
  rewrite Hsid. rewrite bool_decide_eq_true_2 by eauto.
  unfold transport_terminate, fire_close. simpl. unfold Routes.on_close.
  rewrite sessionId_of_set_state.
  change (sessionId_of (log_handle t w) t) with (sessionId_of w t).
  rewrite Hsid, Htr. by destruct (x_throws _).
Qed.

Lemma routes_handle_wf gen rq w :
  table_wf w → table_wf (Routes.handle gen rq w).1.1.
Proof.
  intros Hwf. destruct rq as [h b e | h x | h x]; simpl.
  - rewrite routes_post_world by done.
    destruct (lookup_session h w) as [t| |]; [done|done|].
    destruct (negb (truthy h) && isInitializeRequest b); [|done].
    destruct (Routes.connect_throws e).
    + by apply table_wf_new_transport.
    + apply routes_initialize_wf.
      * by apply (table_wf_new_transport w).
      * apply (new_transport_new w).
  - destruct gen as [g|]; [|done]. rewrite routes_session_world by done.
    by destruct (lookup_session h w).
  - destruct gen as [g|]; [|done]. rewrite routes_session_world by done.
    destruct (lookup_session h w) as [t| |] eqn:Hl; [|done|done].
    apply lookup_session_Own in Hl as (sid & -> & _ & Hk). simpl.
    by apply (table_wf_closed (log_handle t w)).
Qed.

Lemma routes_run_wf gen rqs :
  ∀ w, table_wf w → table_wf (Routes.run gen w rqs).
Proof.
  induction rqs as [|rq rqs IH]; intros w Hwf; [done|].
  simpl. apply IH. by apply routes_handle_wf.
Qed.



(** ** Keys and generator in registerMcpRoutes *)




(** ** C6: how entries enter and leave the table *)





(** Without the first hypothesis the second clause fails: when the generator
    returns an identifier that is still a key, the callback of the new
    transport takes the key over and the transport bound before stays
    [Active]. *)
Lemma reissued_identifier_rebinds :
  let w := Server.run (Some constant_generator) initial [sample_init] in
  let w' := Server.step (Some constant_generator) w sample_init in
  transportMap w !! "s" = Some 0
  ∧ transportMap w' !! "s" = Some 1
  ∧ state_of w' 0 = Some Active.
Proof. vm_compute. done. Qed.

(** ** C3: GET and DELETE without a generator *)

Lemma server_stateless_table evs : transportMap (Server.run None initial evs) = ∅.
Proof.
  assert (H : ∀ w, table_wf w → keys_truthy w → transportMap w = ∅ →
              transportMap (Server.run None w evs) = ∅).
  { induction evs as [|ev evs IH]; intros w Hwf Htr Hem; [done|].
    simpl. destruct (server_step_wf None ev w Hwf Htr) as [H1 H2].
    apply IH; [done|done|].
    apply map_eq. intros k. rewrite lookup_empty.
    destruct (transportMap (Server.step None w ev) !! k) as [t|] eqn:Hk; [|done].
    exfalso. destruct ev as [rq | rank faults]; simpl in Hk.
    - destruct (server_handle_entry None rq w k t Hwf Htr Hk)
        as [Hold | (_ & _ & _ & g & Hg & _)]; [|discriminate].
      by rewrite Hem, lookup_empty in Hold.
    - unfold Server.onClose in Hk.
      destruct (shutdown_loop_facts faults (Server.for_in rank w) w Hwf Htr
                  (for_in_NoDup rank w)) as (_ & _ & Hmap & _).
      apply Hmap in Hk as [Hk _]. by rewrite Hem, lookup_empty in Hk. }
  apply H; [apply table_wf_initial | apply keys_truthy_initial | done].
Qed.

(** C3, as amended.  With no generator configured, [registerMcpServer] never
    puts an entry in its table, and its GET and DELETE handlers answer every
    request whose session-id header is not the name of a member of
    [Object.prototype] with status 400 and the text
    "Invalid or missing session ID", without calling a transport.  The
    handler [registerMcpRoutes] shares between GET and DELETE answers every
    request with status 405 and the envelope of code -32000, for every value
    of the header, whenever the generator it closes over is undefined. *)
Theorem stateless_get_delete :
  (∀ evs h x o,
     (∀ sid, h = Some sid → inherited sid = false) →
     let w := Server.run None initial evs in
     transportMap w = ∅
     ∧ Server.get_handler None h x w
       = (w, reply_send 400 (PlainText "Invalid or missing session ID") fresh_reply)
     ∧ Server.delete_handler h o w
       = (w, reply_send 400 (PlainText "Invalid or missing session ID") fresh_reply))
  ∧ (∀ verb h x w,
       Routes.handleSessionRequest None verb h x w
       = (w, reply_send 405
               (JsonRpcError (-32000) "Method not allowed in stateless mode")
               fresh_reply, false)).
Proof.
  split; [|done].
  intros evs h x o Hh w. pose proof (server_stateless_table evs) as Hem. fold w in Hem.
  pose proof (lookup_session_empty h w Hem Hh) as Hl.
  split; [done|]. split.
  - unfold Server.get_handler. by rewrite Hl.
  - unfold Server.delete_handler. unfold lookup_session in Hl.
    destruct h as [sid|]; [|done]. destruct (truthy_string sid); [|done].
    by rewrite Hl.
Qed.

Lemma stateless_get_delete_witness :
  Server.get_handler None (Some "session-0") sample_exchange
    (Server.run None initial [sample_init])
  = (Server.run None initial [sample_init],
     reply_send 400 (PlainText "Invalid or missing session ID") fresh_reply)
  ∧ Routes.handleSessionRequest None DELETE (Some "session-0") sample_exchange initial
    = (initial, reply_send 405
                  (JsonRpcError (-32000) "Method not allowed in stateless mode")
                  fresh_reply, false).
Proof.
  destruct stateless_get_delete as [Hserver Hroutes]. split.
  - apply (Hserver [sample_init] (Some "session-0") sample_exchange CloseOk).
    intros sid [= <-]. reflexivity.
  - apply Hroutes.
Defined.

(** C3, as stated, fails on [registerMcpServer]: without a generator a GET is
    answered 400, not 405. *)
Lemma stateless_get_is_not_405 :
  ¬ (∀ evs h x,
       statusLine (Server.get_handler None h x (Server.run None initial evs)).2
         = Some 405).
Proof.
  intros H. specialize (H [] None sample_exchange).
  vm_compute in H. discriminate H.
Qed.

(** ** C2 and C5 in the worlds the registries reach *)

Lemma names_no_session_Missing h w :
  names_no_session h w → lookup_session h w = Missing.
Proof.
  intros [Hf | (sid & -> & _ & Hk & Hi)].
  - by apply lookup_session_falsy.
  - by apply lookup_session_unknown.
Qed.

(** C2, as amended.  Let the generator never return ["__proto__"].  In the
    worlds the registries reach, a POST whose session-id header is a
    non-empty string that is neither a key of the table nor the name of a
    member of [Object.prototype], and a POST whose header is absent or empty
    and whose body is not an initialization message, is answered by both
    adapters with status 400 and the envelope of code -32000; the world is
    left as it was, so no transport is created and none is called, and the
    answer is not 500. *)
Theorem post_without_valid_session gen evs rqs h b e1 e2 :
  never_proto gen →
  let ws := Server.run gen initial evs in
  let wr := Routes.run gen initial rqs in
  ((∃ sid, h = Some sid ∧ truthy_string sid = true ∧ transportMap ws !! sid = None
           ∧ inherited sid = false)
   ∨ (truthy h = false ∧ isInitializeRequest b = false) →
   Server.post_handler gen h b e1 ws
   = (ws, mkReply (Some 400) false None
            (JsonRpcError (-32000) "Bad Request: No valid session ID provided")
            400 true false))
  ∧ ((∃ sid, h = Some sid ∧ truthy_string sid = true ∧ transportMap wr !! sid = None
             ∧ inherited sid = false)
     ∨ (truthy h = false ∧ isInitializeRequest b = false) →
     Routes.post_handler gen h b e2 wr
     = (wr, mkReply (Some 400) false None
              (JsonRpcError (-32000) "Bad Request: No valid session ID provided")
              400 true false, false)).
Proof.
  intros _ ws wr. split.
  - intros H. by destruct (post_refused gen h b e1 e2 ws H).
  - intros H. by destruct (post_refused gen h b e1 e2 wr H).
Qed.

(** A stale identifier, in tables that hold a live session. *)
Lemma post_without_valid_session_witness :
  let ws := Server.run (Some sample_generator) initial [sample_init] in
  let wr := Routes.run (Some sample_generator) initial [routes_sample_init] in
  transportMap ws !! "session-0" = Some 0
  ∧ transportMap wr !! "session-0" = Some 0
  ∧ Server.post_handler (Some sample_generator) (Some "stale") OtherMessage
      (Server.mkPostEnv false false sample_exchange) ws
    = (ws, mkReply (Some 400) false None
             (JsonRpcError (-32000) "Bad Request: No valid session ID provided")
             400 true false)
  ∧ Routes.post_handler (Some sample_generator) (Some "stale") OtherMessage
      (Routes.mkPostEnv false sample_exchange) wr
    = (wr, mkReply (Some 400) false None
             (JsonRpcError (-32000) "Bad Request: No valid session ID provided")
             400 true false, false).
Proof.
  split; [reflexivity|]. split; [reflexivity|].
  destruct (post_without_valid_session (Some sample_generator) [sample_init]
              [routes_sample_init] (Some "stale") OtherMessage
              (Server.mkPostEnv false false sample_exchange)
              (Routes.mkPostEnv false sample_exchange)
              sample_generator_never_proto) as [Hs Hr].
  split.
  - apply Hs. left. exists "stale". split; [reflexivity|]. split; [reflexivity|].
    split; reflexivity.
  - apply Hr. left. exists "stale". split; [reflexivity|]. split; [reflexivity|].
    split; reflexivity.
Defined.

(** C5, as amended.  Let the generator never return ["__proto__"].  In the
    worlds the registries reach:
    - the POST handlers answer a request that names no session and brings no
      initialization with the envelope of code -32000 under status 400;
    - the POST handler of [registerMcpServer] answers with the envelope of
      code -32603 under status 500 when the server factory or the connection
      throws, and when the transport throws before it has written anything;
    - [handleSessionRequest] without a generator refuses with the envelope of
      code -32000 under status 405;
    - the GET and DELETE handlers answer a request that names no session
      with status 400 and the plain text "Invalid or missing session ID";
    - the DELETE handler of [registerMcpServer] answers a close that fails,
      before or after the transport is closed, with status 500 and the plain
      text "Error processing session termination". *)
Theorem failure_bodies gen evs rqs :
  never_proto gen →
  let ws := Server.run gen initial evs in
  let wr := Routes.run gen initial rqs in
  (∀ h b e, names_no_session h ws →
     negb (truthy h) && isInitializeRequest b = false →
     (Server.post_handler gen h b e ws).2
       = reply_send 400 (JsonRpcError (-32000) "Bad Request: No valid session ID provided")
                    fresh_reply)
  ∧ (∀ h b e, names_no_session h wr →
       negb (truthy h) && isInitializeRequest b = false →
       (Routes.post_handler gen h b e wr).1.2
         = reply_send 400
             (JsonRpcError (-32000) "Bad Request: No valid session ID provided")
             fresh_reply)
  ∧ (∀ h e, truthy h = false →
       Server.factory_throws e || Server.connect_throws e = true →
       (Server.post_handler gen h InitializeMessage e ws).2
         = reply_send 500 (JsonRpcError (-32603) "Internal server error") fresh_reply)
  ∧ (∀ h b e, x_throws (Server.exchange e) = true →
       x_status (Server.exchange e) = None → x_ends (Server.exchange e) = false →
       Server.factory_throws e || Server.connect_throws e = false →
       ((∃ sid t, h = Some sid ∧ transportMap ws !! sid = Some t)
        ∨ (truthy h = false ∧ b = InitializeMessage)) →
       (Server.post_handler gen h b e ws).2
         = reply_send 500 (JsonRpcError (-32603) "Internal server error") fresh_reply)
  ∧ (∀ verb h x w,
       (Routes.handleSessionRequest None verb h x w).1.2
         = reply_send 405 (JsonRpcError (-32000) "Method not allowed in stateless mode")
                      fresh_reply)
  ∧ (∀ h x o, names_no_session h ws →
       (Server.get_handler gen h x ws).2
         = reply_send 400 (PlainText "Invalid or missing session ID") fresh_reply
       ∧ (Server.delete_handler h o ws).2
         = reply_send 400 (PlainText "Invalid or missing session ID") fresh_reply)
  ∧ (∀ g verb h x, gen = Some g → names_no_session h wr →
       (Routes.handleSessionRequest gen verb h x wr).1.2
         = reply_send 400 (PlainText "Invalid or missing session ID") fresh_reply)
  ∧ (∀ sid t notified, transportMap ws !! sid = Some t →
       (Server.delete_handler (Some sid) (CloseFails notified) ws).2
         = reply_send 500 (PlainText "Error processing session termination") fresh_reply).
Proof.
  intros _ ws wr.
  destruct (server_reachable_wf gen evs) as [Hwf Htr]. fold ws in Hwf, Htr.
  destruct (failure_paths gen ws) as (P400 & P500 & T500 & _ & G400 & _).
  destruct (failure_paths gen wr) as (R400 & _ & _ & R405 & _ & _).
  split; [|split; [|split; [|split; [|split; [|split; [|split]]]]]].
  - intros h b e Hno Hb.
    by destruct (P400 h b e (Routes.mkPostEnv false (Server.exchange e))
                   (names_no_session_Missing h ws Hno) Hb).
  - intros h b e Hno Hb.
    by destruct (R400 h b (Server.mkPostEnv false false (Routes.exchange e)) e
                   (names_no_session_Missing h wr Hno) Hb).
  - intros h e Hf He. apply P500; [by apply lookup_session_falsy|done|done].
  - intros h b e Ht Hs He Hfc Hcase. apply T500; try done.
    destruct Hcase as [(sid & t & -> & Hk) | Hinit]; [|by right].
    left. exists t. apply lookup_session_Own. exists sid.
    split; [done|]. split; [by apply (Htr sid t)|done].
  - intros verb h x w. reflexivity.
  - intros h x o Hno.
    destruct (G400 h x o (λ _, EmptyString) GET (names_no_session_Missing h ws Hno))
      as (Hg & Hd & _).
    done.
  - intros g verb h x -> Hno. unfold Routes.handleSessionRequest.
    by rewrite (names_no_session_Missing h wr Hno).
  - intros sid t notified Hk. unfold Server.delete_handler, property.
    rewrite (Htr sid t Hk), Hk, (server_close ws sid t _ Hwf Htr Hk).
    by destruct notified.
Qed.

(** The plain-text answers at a table that holds a live session: an unknown
    identifier on GET, and a close that fails after the transport was closed
    on DELETE; and the envelope on POST. *)
Lemma failure_bodies_witness :
  let ws := Server.run (Some sample_generator) initial [sample_init] in
  (Server.get_handler (Some sample_generator) (Some "stale") sample_exchange ws).2
    = reply_send 400 (PlainText "Invalid or missing session ID") fresh_reply
  ∧ (Server.delete_handler (Some "session-0") (CloseFails true) ws).2
    = reply_send 500 (PlainText "Error processing session termination") fresh_reply
  ∧ (Server.post_handler (Some sample_generator) (Some "stale") OtherMessage
       (Server.mkPostEnv false false sample_exchange) ws).2
    = reply_send 400 (JsonRpcError (-32000) "Bad Request: No valid session ID provided")
                 fresh_reply.
Proof.
  destruct (failure_bodies (Some sample_generator) [sample_init] [routes_sample_init]
              sample_generator_never_proto)
    as (P400 & _ & _ & _ & _ & G400 & _ & D500).
  assert (Hno : names_no_session (Some "stale")
                  (Server.run (Some sample_generator) initial [sample_init])).
  { right. exists "stale". split; [reflexivity|]. split; [reflexivity|].
    split; reflexivity. }
  split; [|split].
  - by destruct (G400 (Some "stale") sample_exchange CloseOk Hno).
  - apply (D500 "session-0" 0 true). reflexivity.
  - apply (P400 (Some "stale") OtherMessage
             (Server.mkPostEnv false false sample_exchange) Hno). reflexivity.
Defined.

(** ** C8: the stateless handler *)

Lemma handleRequest_world hk gen t verb b x w r :
  (transport_handleRequest hk gen t verb b x w r).1.1
  = transport_receive hk gen t verb b w.
Proof. reflexivity. Qed.

Lemma stateless_handle_world t b w :
  let w' := transport_receive Stateless.hooks None t POST (Some b) w in
  length (heap w') = length (heap w) ∧ closeLog w' = closeLog w.
Proof.
  unfold transport_receive. simpl.
  destruct (state_of (log_handle t w) t) as [[]|]; try done.
  destruct (isInitializeRequest b); [|done].
  simpl. by rewrite length_alter.
Qed.

Lemma stateless_close_world t o w :
  let w' := (transport_close Stateless.hooks t o w).1 in
  length (heap w') = length (heap w)
  ∧ closeLog w' = t :: closeLog w
  ∧ (t < length (heap w) → fails_early o = false → state_of w' t = Some Closed).
Proof.
  unfold transport_close. simpl.
  destruct (state_of (log_close t w) t) as [st|] eqn:Hst.
  - assert (Hcl : state_of (set_state t Closed (log_close t w)) t = Some Closed).
    { apply state_of_set_state_eq. rewrite Hst. eauto. }
    assert (Hlen : length (heap (set_state t Closed (log_close t w)))
                   = length (heap w)).
    { simpl. by rewrite length_alter. }
    destruct st, o as [|[]]; simpl; try done.
  - split; [|split].
    + destruct o as [|[]]; simpl; by rewrite ?length_alter.
    + by destruct o as [|[]].
    + intros Hlt _. exfalso. rewrite state_of_log_close in Hst.
      apply lookup_lt_is_Some_2 in Hlt. apply state_of_is_Some in Hlt.
      rewrite Hst in Hlt. by destruct Hlt.
Qed.







(** The connection is lost while the handler still waits for
    [server.connect]: nothing was sent, and both are closed. *)
Lemma stateless_close_before_reply :
  let st := Stateless.run Stateless.start
              [Stateless.Enter InitializeMessage (Some 0);
               Stateless.RequestClose 0 CloseOk] in
  state_of (Stateless.world st) 0 = Some Closed
  ∧ closeLog (Stateless.world st) = [0]
  ∧ Stateless.serverCloseLog st = [0]
  ∧ Stateless.reply <$> Stateless.calls st !! 0 = Some fresh_reply.
Proof. vm_compute. done. Qed.

(** The connection is lost after the reply was sent and the handler ended. *)
Lemma stateless_close_after_reply :
  let st := Stateless.run Stateless.start
              [Stateless.Enter InitializeMessage (Some 0);
               Stateless.ConnectSettles 0 false;
               Stateless.HandleSettles 0 sample_exchange;
               Stateless.RequestClose 0 (CloseFails true)] in
  state_of (Stateless.world st) 0 = Some Closed
  ∧ closeLog (Stateless.world st) = [0]
  ∧ Stateless.serverCloseLog st = [0]
  ∧ (statusLine ∘ Stateless.reply) <$> Stateless.calls st !! 0 = Some (Some 200).
Proof. vm_compute. done. Qed.

(** * Further properties of the adapters *)

(** ** Transports constructed and requests handed over *)

Lemma lookup_session_truthy h w : lookup_session h w ≠ Missing → truthy h = true.
Proof.
  unfold lookup_session, truthy. destruct h as [sid|]; [|done].
  by destruct (truthy_string sid).
Qed.

Lemma server_initialize_logs gen t w :
  length (heap (transport_initialize Server.hooks gen t w)) = length (heap w)
  ∧ handleLog (transport_initialize Server.hooks gen t w) = handleLog w
  ∧ closeLog (transport_initialize Server.hooks gen t w) = closeLog w.
Proof.
  destruct gen as [g|].
  - rewrite server_initialize_shape.
    destruct (truthy_string _); simpl; rewrite !length_alter; done.
  - simpl. rewrite length_alter. done.
Qed.

Lemma routes_initialize_logs gen t w :
  length (heap (transport_initialize (Routes.hooks gen) gen t w)) = length (heap w)
  ∧ handleLog (transport_initialize (Routes.hooks gen) gen t w) = handleLog w
  ∧ closeLog (transport_initialize (Routes.hooks gen) gen t w) = closeLog w.
Proof.
  destruct gen as [g|].
  - rewrite routes_initialize_shape. simpl. rewrite !length_alter. done.
  - simpl. rewrite length_alter. done.
Qed.

Lemma new_transport_logs w :
  length (heap (new_transport w).2) = S (length (heap w))
  ∧ handleLog (new_transport w).2 = handleLog w
  ∧ closeLog (new_transport w).2 = closeLog w.
Proof. simpl. rewrite length_app. simpl. split; [lia|done]. Qed.

Lemma server_handle_heap gen rq w :
  table_wf w → keys_truthy w →
  length (heap (Server.handle gen rq w).1)
  = length (heap w) + (if server_constructs (Server.Incoming rq) then 1 else 0).
Proof.
  intros Hwf Htr. destruct rq as [h b e | h x | h o]; simpl.
  - rewrite server_post_world by done. unfold constructs.
    destruct (lookup_session h w) as [t| |] eqn:Hl.
    + rewrite (lookup_session_truthy h w) by (by rewrite Hl). simpl. lia.
    + rewrite (lookup_session_truthy h w) by (by rewrite Hl). simpl. lia.
    + destruct (negb (truthy h) && isInitializeRequest b); [|lia].
      destruct (new_transport_logs w) as (Hn & _).
      destruct (Server.factory_throws e || Server.connect_throws e).
      * rewrite Hn. lia.
      * destruct (server_initialize_logs gen (length (heap w))
                    (log_handle (length (heap w)) (new_transport w).2)) as (-> & _).
        change (heap (log_handle _ ?w0)) with (heap w0). rewrite Hn. lia.
  - rewrite server_get_world. destruct (lookup_session h w); simpl; lia.
  - rewrite server_delete_world by done.
    destruct (lookup_session h w), o as [|[]]; simpl; rewrite ?length_alter; lia.
Qed.

Lemma shutdown_loop_heap faults keys :
  ∀ w, table_wf w → keys_truthy w →
  length (heap (Server.shutdown_loop faults keys w)) = length (heap w).
Proof.
  induction keys as [|k rest IH]; intros w Hwf Htr; [done|].
  rewrite shutdown_loop_cons.
  destruct (shutdown_visit_facts faults k w Hwf Htr) as (H1 & H2 & _).
  rewrite IH by done. rewrite shutdown_visit_shape by done.
  destruct (transportMap w !! k); [|done].
  destruct (fails_early _); simpl; rewrite ?length_alter; done.
Qed.

Lemma server_step_heap gen ev w :
  table_wf w → keys_truthy w →
  length (heap (Server.step gen w ev))
  = length (heap w) + (if server_constructs ev then 1 else 0).
Proof.
  intros Hwf Htr. destruct ev as [rq | rank faults].
  - by apply server_handle_heap.
  - simpl. unfold Server.onClose. rewrite shutdown_loop_heap by done. lia.
Qed.

Lemma server_run_heap gen evs :
  ∀ w, table_wf w → keys_truthy w →
  length (heap (Server.run gen w evs))
  = length (heap w) + length (List.filter server_constructs evs).
Proof.
  induction evs as [|ev evs IH]; intros w Hwf Htr; [simpl; lia|].
  change (Server.run gen w (ev :: evs)) with (Server.run gen (Server.step gen w ev) evs).
  destruct (server_step_wf gen ev w Hwf Htr) as [H1 H2].
  rewrite IH by done. rewrite server_step_heap by done.
  simpl. destruct (server_constructs ev); simpl; lia.
Qed.

Lemma routes_handle_heap gen rq w :
  table_wf w →
  length (heap (Routes.handle gen rq w).1.1)
  = length (heap w) + (if routes_constructs rq then 1 else 0).
Proof.
  intros Hwf. destruct rq as [h b e | h x | h x]; simpl.
  - rewrite routes_post_world by done. unfold constructs.
    destruct (lookup_session h w) as [t| |] eqn:Hl.
    + rewrite (lookup_session_truthy h w) by (by rewrite Hl). simpl. lia.
    + rewrite (lookup_session_truthy h w) by (by rewrite Hl). simpl. lia.
    + destruct (negb (truthy h) && isInitializeRequest b); [|lia].
      destruct (new_transport_logs w) as (Hn & _).
      destruct (Routes.connect_throws e).
      * rewrite Hn. lia.
      * destruct (routes_initialize_logs gen (length (heap w))
                    (log_handle (length (heap w)) (new_transport w).2)) as (-> & _).
        change (heap (log_handle _ ?w0)) with (heap w0). rewrite Hn. lia.
  - destruct gen as [g|]; [|simpl; lia]. rewrite routes_session_world by done.
    destruct (lookup_session h w); simpl; lia.
  - destruct gen as [g|]; [|simpl; lia]. rewrite routes_session_world by done.
    destruct (lookup_session h w); simpl; rewrite ?length_alter; lia.
Qed.

Lemma routes_run_heap gen rqs :
  ∀ w, table_wf w →
  length (heap (Routes.run gen w rqs))
  = length (heap w) + length (List.filter routes_constructs rqs).
Proof.
  induction rqs as [|rq rqs IH]; intros w Hwf; [simpl; lia|].
  change (Routes.run gen w (rq :: rqs)) with (Routes.run gen (Routes.step gen w rq) rqs).
  pose proof (routes_handle_wf gen rq w Hwf) as H1.
  rewrite IH by done. unfold Routes.step. rewrite routes_handle_heap by done.
  simpl. destruct (routes_constructs rq); simpl; lia.
Qed.

(** X1.  Both registries construct one transport for every POST whose
    session-id header is absent or empty and whose body is an initialization
    message, whether or not the request then succeeds, and construct none on
    any other request, nor at shutdown: after any run from the empty table the
    number of transports built is the number of such POSTs. *)
Theorem transports_constructed gen evs rqs :
  length (heap (Server.run gen initial evs))
    = length (List.filter server_constructs evs)
  ∧ length (heap (Routes.run gen initial rqs))
    = length (List.filter routes_constructs rqs).
Proof.
  split.
  - rewrite server_run_heap; [done | apply table_wf_initial | apply keys_truthy_initial].
  - rewrite routes_run_heap; [done | apply table_wf_initial].
Qed.

(** X2.  Session isolation in [registerMcpServer].  In every world reached
    from the empty table two different keys are bound to different
    transports, and a request is handed to at most one transport: the one
    bound to the identifier the request bears, whose own identifier that is,
    or the one the request has just made the handler construct, which is
    bound to no key yet.  A DELETE is handed to no transport. *)
Theorem server_request_routing gen evs rq :
  let w := Server.run gen initial evs in
  let w' := (Server.handle gen rq w).1 in
  (∀ k1 k2 t, transportMap w !! k1 = Some t → transportMap w !! k2 = Some t → k1 = k2)
  ∧ (handleLog w' = handleLog w
     ∨ ∃ t, handleLog w' = t :: handleLog w
          ∧ ((∃ S, Server.header rq = Some S ∧ transportMap w !! S = Some t
                   ∧ sessionId_of w t = Some S)
             ∨ (t = length (heap w) ∧ truthy (Server.header rq) = false
                ∧ ∀ k, transportMap w !! k ≠ Some t)))
  ∧ (∀ h o, rq = Server.Delete h o → handleLog w' = handleLog w).
Proof.
  intros w w'. destruct (server_reachable_wf gen evs) as [Hwf Htr]. fold w in Hwf, Htr.
  assert (Hold : ∀ h t, lookup_session h w = Own t →
            ∃ S, h = Some S ∧ transportMap w !! S = Some t ∧ sessionId_of w t = Some S).
  { intros h t (S & -> & _ & Hk)%lookup_session_Own. exists S.
    split; [done|]. split; [done|]. by destruct (Hwf S t Hk). }
  assert (Hdel : ∀ h o, handleLog (Server.delete_handler h o w).1 = handleLog w).
  { intros h o. rewrite server_delete_world by done.
    by destruct (lookup_session h w), o as [|[]]. }
  split; [intros k1 k2 t; by apply table_wf_inj|]. split.
  - unfold w'. destruct rq as [h b e | h x | h o]; simpl.
    + rewrite server_post_world by done.
      destruct (lookup_session h w) as [t| |] eqn:Hl; [|by left|].
      * right. exists t. split; [done|]. left. by apply Hold.
      * destruct (negb (truthy h) && isInitializeRequest b) eqn:Hc; [|by left].
        apply andb_true_iff in Hc as [Hh _]. apply negb_true_iff in Hh.
        destruct (Server.factory_throws e || Server.connect_throws e); [by left|].
        right. exists (length (heap w)). split.
        { by destruct (server_initialize_logs gen (length (heap w))
                         (log_handle (length (heap w)) (new_transport w).2))
            as (_ & -> & _). }
        right. split; [done|]. split; [done|].
        intros k Hk. destruct (Hwf k _ Hk) as [Hs _].
        apply sessionId_of_Some_lt in Hs. lia.
    + rewrite server_get_world.
      destruct (lookup_session h w) as [t| |] eqn:Hl; [|by left|by left].
      right. exists t. split; [done|]. left. by apply Hold.
    + left. apply Hdel.
  - intros h o ->. apply Hdel.
Qed.

(** X3.  Session isolation in [registerMcpRoutes]: a request is handed to
    the transport bound to the identifier it bears, or to the one it has
    just made the handler construct, and to no other. *)
Theorem routes_request_routing gen rqs rq :
  let w := Routes.run gen initial rqs in
  let w' := (Routes.handle gen rq w).1.1 in
  (∀ k1 k2 t, transportMap w !! k1 = Some t → transportMap w !! k2 = Some t → k1 = k2)
  ∧ (handleLog w' = handleLog w
     ∨ ∃ t, handleLog w' = t :: handleLog w
          ∧ ((∃ S, routes_header rq = Some S ∧ transportMap w !! S = Some t
                   ∧ sessionId_of w t = Some S)
             ∨ (t = length (heap w) ∧ truthy (routes_header rq) = false
                ∧ ∀ k, transportMap w !! k ≠ Some t))).
Proof.
  intros w w'. pose proof (routes_run_wf gen rqs initial table_wf_initial) as Hwf.
  fold w in Hwf.
  assert (Hold : ∀ h t, lookup_session h w = Own t →
            ∃ S, h = Some S ∧ transportMap w !! S = Some t ∧ sessionId_of w t = Some S).
  { intros h t (S & -> & _ & Hk)%lookup_session_Own. exists S.
    split; [done|]. split; [done|]. by destruct (Hwf S t Hk). }
  split; [intros k1 k2 t; by apply table_wf_inj|].
  unfold w'. destruct rq as [h b e | h x | h x]; simpl.
  - rewrite routes_post_world by done.
    destruct (lookup_session h w) as [t| |] eqn:Hl; [|by left|].
    + right. exists t. split; [done|]. left. by apply Hold.
    + destruct (negb (truthy h) && isInitializeRequest b) eqn:Hc; [|by left].
      apply andb_true_iff in Hc as [Hh _]. apply negb_true_iff in Hh.
      destruct (Routes.connect_throws e); [by left|].
      right. exists (length (heap w)). split.
      { by destruct (routes_initialize_logs gen (length (heap w))
                       (log_handle (length (heap w)) (new_transport w).2))
          as (_ & -> & _). }
      right. split; [done|]. split; [done|].
      intros k Hk. destruct (Hwf k _ Hk) as [Hs _].
      apply sessionId_of_Some_lt in Hs. lia.
  - destruct gen as [g|]; [|by left]. rewrite routes_session_world by done.
    destruct (lookup_session h w) as [t| |] eqn:Hl; [|by left|by left].
    right. exists t. split; [done|]. left. by apply Hold.
  - destruct gen as [g|]; [|by left]. rewrite routes_session_world by done.
    destruct (lookup_session h w) as [t| |] eqn:Hl; [|by left|by left].
    right. exists t. split; [done|]. left. by apply Hold.
Qed.

(** ** The life of one session in registerMcpServer *)

Lemma server_init_world g h b e w :
  table_wf w → truthy h = false → isInitializeRequest b = true →
  Server.factory_throws e || Server.connect_throws e = false →
  (Server.post_handler (Some g) h b e w).1
  = set_state (length (heap w)) Active
      (if truthy_string (g (issued w))
       then with_map (<[g (issued w) := length (heap w)]>)
              (set_sessionId (length (heap w)) (g (issued w))
                 (count_issue (log_handle (length (heap w)) (new_transport w).2)))
       else set_sessionId (length (heap w)) (g (issued w))
              (count_issue (log_handle (length (heap w)) (new_transport w).2))).
Proof.
  intros Hwf Hh Hb He. rewrite server_post_world by done.
  rewrite (lookup_session_falsy _ _ Hh), Hh, Hb, He. cbn [negb andb].
  by rewrite server_initialize_shape.
Qed.

Lemma server_init_transport g h b e w :
  table_wf w → truthy h = false → isInitializeRequest b = true →
  Server.factory_throws e || Server.connect_throws e = false →
  sessionId_of (Server.post_handler (Some g) h b e w).1 (length (heap w))
    = Some (g (issued w))
  ∧ state_of (Server.post_handler (Some g) h b e w).1 (length (heap w)) = Some Active.
Proof.
  intros Hwf Hh Hb He.
  assert (Hex : is_Some (state_of (log_handle (length (heap w)) (new_transport w).2)
                           (length (heap w)))).
  { rewrite state_of_log_handle.
    destruct (new_transport_new w) as (_ & _ & -> & _). eauto. }
  split.
  - rewrite server_post_world by done.
    rewrite (lookup_session_falsy _ _ Hh), Hh, Hb, He. cbn [negb andb].
    by rewrite server_initialize_sessionId.
  - rewrite server_init_world by done. apply state_of_set_state_eq.
    destruct (truthy_string _); rewrite ?state_of_with_map, state_of_set_sessionId;
      exact Hex.
Qed.



Lemma server_step_unbound gen t ev w :
  table_wf w → keys_truthy w → t < length (heap w) → unbound t w →
  t < length (heap (Server.step gen w ev)) ∧ unbound t (Server.step gen w ev).
Proof.
  intros Hwf Htr Hlt Hun. split.
  - rewrite server_step_heap by done. lia.
  - intros k Hk. destruct ev as [rq | rank faults]; simpl in Hk.
    + destruct (server_handle_entry gen rq w k t Hwf Htr Hk) as [Hold | (_ & Ht & _)].
      * by apply (Hun k).
      * lia.
    + unfold Server.onClose in Hk.
      destruct (shutdown_loop_facts faults (Server.for_in rank w) w Hwf Htr
                  (for_in_NoDup rank w)) as (_ & _ & Hmap & _).
      apply Hmap in Hk as [Hk _]. by apply (Hun k).
Qed.

Lemma server_run_unbound gen t evs :
  ∀ w, table_wf w → keys_truthy w → t < length (heap w) → unbound t w →
  unbound t (Server.run gen w evs).
Proof.
  induction evs as [|ev evs IH]; intros w Hwf Htr Hlt Hun; [done|].
  change (Server.run gen w (ev :: evs)) with (Server.run gen (Server.step gen w ev) evs).
  destruct (server_step_wf gen ev w Hwf Htr) as [H1 H2].
  destruct (server_step_unbound gen t ev w Hwf Htr Hlt Hun) as [H3 H4].
  by apply IH.
Qed.

(** X5.  A generator that returns the empty string.  The initialization
    POST of [registerMcpServer] still succeeds: the transport it constructed
    is [Active] and carries the empty identifier.  But the callback stores
    nothing under a falsy identifier: the table is left as it was, and in no
    later world, whatever is requested, does any header lead to that
    transport. *)
Theorem server_empty_identifier_is_orphan g evs h b e evs' hdr :
  truthy h = false → isInitializeRequest b = true →
  Server.factory_throws e || Server.connect_throws e = false →
  truthy_string (g (issued (Server.run (Some g) initial evs))) = false →
  let w := Server.run (Some g) initial evs in
  let t := length (heap w) in
  let w' := (Server.post_handler (Some g) h b e w).1 in
  state_of w' t = Some Active
  ∧ sessionId_of w' t = Some (g (issued w))
  ∧ transportMap w' = transportMap w
  ∧ lookup_session hdr (Server.run (Some g) w' evs') ≠ Own t.
Proof.
  intros Hh Hb He Hsid w t w'.
  destruct (server_reachable_wf (Some g) evs) as [Hwf Htr]. fold w in Hwf, Htr, Hsid.
  destruct (server_handle_wf (Some g) (Server.Post h b e) w Hwf Htr) as [Hwf' Htr'].
  change (Server.handle _ _ _).1 with w' in Hwf', Htr'.
  destruct (server_init_transport g h b e w Hwf Hh Hb He) as [Hs Hst].
  assert (Hmap : transportMap w' = transportMap w).
  { unfold w'. rewrite server_init_world by done. by rewrite Hsid. }
  split; [done|]. split; [done|]. split; [done|].
  intros (k & _ & _ & Hk)%lookup_session_Own.
  apply (server_run_unbound (Some g) t evs' w' Hwf' Htr') in Hk; [done| |].
  - pose proof (server_handle_heap (Some g) (Server.Post h b e) w Hwf Htr) as Hlen.
    change (Server.handle _ _ _).1 with w' in Hlen. rewrite Hlen.
    simpl. unfold constructs. rewrite Hh, Hb. simpl. unfold t. lia.
  - intros k' Hk'. rewrite Hmap in Hk'. destruct (Hwf k' t Hk') as [Hs' _].
    apply sessionId_of_Some_lt in Hs'. unfold t in Hs'. lia.
Qed.

Lemma server_empty_identifier_is_orphan_witness :
  let w := Server.run (Some empty_generator) initial [] in
  let w' := (Server.post_handler (Some empty_generator) None InitializeMessage
               (Server.mkPostEnv false false sample_exchange) w).1 in
  state_of w' 0 = Some Active
  ∧ sessionId_of w' 0 = Some EmptyString
  ∧ transportMap w' = transportMap w
  ∧ lookup_session (Some EmptyString)
      (Server.run (Some empty_generator) w'
         [Server.Incoming (Server.Get (Some EmptyString) sample_exchange)]) ≠ Own 0.
Proof.
  apply (server_empty_identifier_is_orphan empty_generator [] None InitializeMessage
           (Server.mkPostEnv false false sample_exchange)
           [Server.Incoming (Server.Get (Some EmptyString) sample_exchange)]
           (Some EmptyString)); reflexivity.
Defined.



(** X7.  The GET handler of [registerMcpServer] answers a request that
    names a live session with the [mcp-session-id] header set to the
    identifier the request bore, whatever the transport then does. *)
Theorem server_get_echoes_session gen evs S t x :
  transportMap (Server.run gen initial evs) !! S = Some t →
  sessionHeader (Server.get_handler gen (Some S) x (Server.run gen initial evs)).2
  = Some S.
Proof.
  intros Hk. destruct (server_reachable_wf gen evs) as [Hwf Htr].
  set (w := Server.run gen initial evs) in *.
  pose proof (Htr S t Hk) as HS. destruct (Hwf S t Hk) as [Hsid _].
  assert (Hl : lookup_session (Some S) w = Own t).
  { apply lookup_session_Own. eauto. }
  unfold Server.get_handler. rewrite Hl, Hsid. simpl truthy. rewrite HS.
  set (r1 := raw_writeHead 200 true (Some S) fresh_reply).
  destruct (transport_handleRequest Server.hooks gen t GET None x w r1)
    as [[w1 r2] threw] eqn:E.
  assert (Hr2 : sessionHeader r2 = Some S).
  { pose proof (handleRequest_reply Server.hooks gen t GET None x w r1) as Hr.
    rewrite E in Hr. simpl in Hr. rewrite Hr.
    by destruct (transport_respond_committed x (sessionId_of w1 t) r1 200 eq_refl)
      as (_ & _ & ->). }
  simpl. by destruct threw, (negb (sent r2) && negb (writableEnded r2)).
Qed.

Lemma server_get_echoes_session_witness :
  sessionHeader
    (Server.get_handler (Some sample_generator) (Some "session-0") faulty_exchange
       (Server.run (Some sample_generator) initial [sample_init])).2
  = Some "session-0".
Proof.
  apply (server_get_echoes_session (Some sample_generator) [sample_init] "session-0" 0
           faulty_exchange).
  vm_compute. reflexivity.
Defined.

(** X8.  The POST handler of [registerMcpServer] around the transport.
    When the request is handed to a transport, a status the transport wrote
    is the status the client sees, and a response the transport ended is
    left alone, even if the transport throws afterwards.  The handler puts
    its own body, the envelope of code -32603, in the reply exactly when the
    transport throws before it has written or ended anything. *)
Theorem server_post_envelope_iff gen h b e w :
  (∃ t, lookup_session h w = Own t)
  ∨ (truthy h = false ∧ isInitializeRequest b = true
     ∧ Server.factory_throws e || Server.connect_throws e = false) →
  let r := (Server.post_handler gen h b e w).2 in
  let x := Server.exchange e in
  (∀ s, x_status x = Some s → statusLine r = Some s ∧ payload r = NoPayload)
  ∧ (x_ends x = true → payload r = NoPayload ∧ writableEnded r = true)
  ∧ (payload r = JsonRpcError (-32603) "Internal server error" ↔
       x_throws x = true ∧ x_status x = None ∧ x_ends x = false).
Proof.
  intros Hcase. cbv zeta.
  assert (Hr : ∃ sid, (Server.post_handler gen h b e w).2
                 = if x_throws (Server.exchange e)
                   then Server.post_catch
                          (transport_respond (Server.exchange e) sid fresh_reply)
                   else transport_respond (Server.exchange e) sid fresh_reply).
  { unfold Server.post_handler. destruct Hcase as [[t Hl] | (Hh & Hb & He)].
    - rewrite Hl. eexists. reflexivity.
    - rewrite (lookup_session_falsy _ _ Hh), Hh, Hb. cbn [negb andb].
      unfold new_transport. rewrite He. eexists. reflexivity. }
  destruct Hr as [sid ->].
  unfold Server.post_catch, sent, transport_respond, raw_writeHead, raw_end, reply_send.
  destruct (Server.exchange e) as [[s|] st [] []]; simpl;
    (split; [|split];
     [ intros s' Hs'; try discriminate Hs'; injection Hs' as <-; done
     | intros He'; try discriminate He'; done
     | split; [intros Hp; try discriminate Hp; done
              |intros (H1 & H2 & H3); try discriminate; done] ]).
Qed.

Lemma server_post_envelope_iff_witness :
  let r := (Server.post_handler (Some sample_generator) (Some "session-0") OtherMessage
              (Server.mkPostEnv false false faulty_exchange) one_session).2 in
  (∀ s, x_status faulty_exchange = Some s → statusLine r = Some s ∧ payload r = NoPayload)
  ∧ (x_ends faulty_exchange = true → payload r = NoPayload ∧ writableEnded r = true)
  ∧ (payload r = JsonRpcError (-32603) "Internal server error" ↔
       x_throws faulty_exchange = true ∧ x_status faulty_exchange = None
       ∧ x_ends faulty_exchange = false).
Proof.
  apply (server_post_envelope_iff (Some sample_generator) (Some "session-0") OtherMessage
           (Server.mkPostEnv false false faulty_exchange) one_session).
  left. exists 0. vm_compute. reflexivity.
Defined.

(** ** Options *)

(** X9.  Where the two registries mount their routes.  [registerMcpServer]
    takes ["/mcp"] for every falsy [path] (missing, [undefined] or empty);
    [registerMcpRoutes] takes it only when [route] is missing or
    [undefined].  The two agree on every value except the empty string,
    which [registerMcpRoutes] keeps as its route. *)
Theorem mount_path_defaults (p : option string) :
  let routes_path := Routes.effective_route
                       (Some (Routes.mkOptions (Routes.given p) Routes.absent
                                Routes.absent Routes.absent)) in
  (FastifyMcpOptions.path p = "/mcp" ↔
     p = None ∨ p = Some EmptyString ∨ p = Some "/mcp")
  ∧ (routes_path = Some "/mcp" ↔ p = None ∨ p = Some "/mcp")
  ∧ (routes_path = Some (FastifyMcpOptions.path p) ↔ p ≠ Some EmptyString)
  ∧ Routes.effective_route None = Some (FastifyMcpOptions.path None).
Proof.
  destruct p as [[|a s]|]; cbv zeta;
    unfold Routes.effective_route, Routes.destructure, FastifyMcpOptions.path; simpl;
    intuition congruence.
Qed.

(** ** registerMcpRoutes *)



Lemma handleRequest_hijacked hk gen t verb b x w r :
  hijacked (transport_handleRequest hk gen t verb b x w r).1.2 = hijacked r.
Proof. rewrite handleRequest_reply. apply transport_respond_hijacked. Qed.

(** X11.  The handlers of [registerMcpRoutes] and the reply.  A handler
    that returns has sent the reply: it answered 400 or 405 itself, or it
    hijacked the reply after the transport handled the request, so that
    Fastify sends nothing more.  A handler whose promise rejects (there is
    no [try] in this adapter) has put no body of its own in the reply and
    has not hijacked it: the error is left to Fastify. *)
Theorem routes_reply_after_handler gen rq w :
  let r := (Routes.handle gen rq w).1.2 in
  ((Routes.handle gen rq w).2 = false → sent r = true)
  ∧ ((Routes.handle gen rq w).2 = true → payload r = NoPayload ∧ hijacked r = false).
Proof.
  assert (Hvia : ∀ t verb b x w0,
    let '(w1, r1, threw) :=
      transport_handleRequest (Routes.hooks gen) gen t verb b x w0 fresh_reply in
    let res := if threw then (w1, r1, true) else (w1, reply_hijack r1, false) in
    (res.2 = false → sent res.1.2 = true)
    ∧ (res.2 = true → payload res.1.2 = NoPayload ∧ hijacked res.1.2 = false)).
  { intros t verb b x w0.
    pose proof (handleRequest_payload (Routes.hooks gen) gen t verb b x w0 fresh_reply)
      as Hp.
    pose proof (handleRequest_hijacked (Routes.hooks gen) gen t verb b x w0 fresh_reply)
      as Hj.
    destruct (transport_handleRequest _ _ t verb b x w0 fresh_reply) as [[w1 r1] threw].
    simpl in Hp, Hj. destruct threw; simpl; split; done. }
  cbv zeta. destruct rq as [h b e | h x | h x]; simpl.
  - unfold Routes.post_handler.
    destruct (lookup_session h w) as [t| |].
    + pose proof (Hvia t POST (Some b) (Routes.exchange e) w) as H.
      by destruct (transport_handleRequest _ _ t POST _ _ w fresh_reply)
        as [[w1 r1] threw].
    + split; done.
    + destruct (negb (truthy h) && isInitializeRequest b); [|split; done].
      unfold new_transport. destruct (Routes.connect_throws e); [split; done|].
      pose proof (Hvia (length (heap w)) POST (Some b) (Routes.exchange e)
                    (with_heap (λ h0, (h0 ++ [mkTransport None Uninitialized])%list) w))
        as H.
      by destruct (transport_handleRequest _ _ (length (heap w)) POST _ _ _ fresh_reply)
        as [[w1 r1] threw].
  - unfold Routes.handleSessionRequest. destruct gen as [g|]; [|split; done].
    destruct (lookup_session h w) as [t| |]; [|split; done|split; done].
    pose proof (Hvia t GET None x w) as H.
    by destruct (transport_handleRequest _ _ t GET _ _ w fresh_reply)
      as [[w1 r1] threw].
  - unfold Routes.handleSessionRequest. destruct gen as [g|]; [|split; done].
    destruct (lookup_session h w) as [t| |]; [|split; done|split; done].
    pose proof (Hvia t DELETE None x w) as H.
    by destruct (transport_handleRequest _ _ t DELETE _ _ w fresh_reply)
      as [[w1 r1] threw].
Qed.

(** ** createStatelessMcpHandler *)

Lemma handler_catch_header r :
  sessionHeader (Stateless.handler_catch r) = sessionHeader r.
Proof.
  unfold Stateless.handler_catch, reply_send.
  destruct (sent r); [done|]. by destruct (statusLine r).
Qed.

Lemma transport_respond_no_header x r :
  sessionHeader r = None → sessionHeader (transport_respond x None r) = None.
Proof.
  unfold transport_respond, raw_writeHead, raw_end.
  by destruct (x_status x), (x_ends x), (statusLine r).
Qed.

Lemma stateless_handle_facts t b w :
  let w' := transport_receive Stateless.hooks None t POST (Some b) w in
  handleLog w' = t :: handleLog w
  ∧ transportMap w' = transportMap w
  ∧ issued w' = issued w
  ∧ ∀ t', sessionId_of w' t' = sessionId_of w t'.
Proof.
  unfold transport_receive. simpl.
  destruct (state_of (log_handle t w) t) as [[]|]; try done.
  destruct (isInitializeRequest b); [|done].
  simpl. split; [done|]. split; [done|]. split; [done|].
  intros t'. apply (sessionId_of_set_state t Active (log_handle t w) t').
Qed.

Lemma stateless_close_facts t o w :
  let w' := (transport_close Stateless.hooks t o w).1 in
  handleLog w' = handleLog w
  ∧ transportMap w' = transportMap w
  ∧ issued w' = issued w
  ∧ ∀ t', sessionId_of w' t' = sessionId_of w t'.
Proof.
  unfold transport_close, transport_terminate, fire_close. simpl.
  destruct (state_of (log_close t w) t) as [[]|], o as [|[]]; simpl;
    (split; [done|]; split; [done|]; split; [done|]); intros t'; try done;
    apply (sessionId_of_set_state t Closed (log_close t w) t').
Qed.

Lemma new_transport_sessionId w t :
  (∀ t', sessionId_of w t' = None) → sessionId_of (new_transport w).2 t = None.
Proof.
  intros Hs. destruct (decide (t < length (heap w))) as [Hlt|Hge].
  - destruct (new_transport_old w t Hlt) as [-> _]. apply Hs.
  - destruct (decide (t = length (heap w))) as [->|Hne].
    + apply (new_transport_new w).
    + unfold sessionId_of, new_transport. simpl.
      rewrite lookup_ge_None_2; [done|]. rewrite length_app. simpl. lia.
Qed.

Lemma stateless_sessionless_step st ev :
  stateless_sessionless st → stateless_sessionless (Stateless.step st ev).
Proof.
  intros (Hm & Hi & Hs & Hr). unfold stateless_sessionless.
  destruct ev as [b [server|] | rq rej | rq x | rq o]; simpl.
  - unfold Stateless.enter, new_transport. simpl.
    split; [done|]. split; [done|]. split.
    + intros t'. by apply (new_transport_sessionId (Stateless.world st) t').
    + intros rq c [[_ Hc] | [_ <-]]%lookup_snoc_Some; [by eapply Hr|done].
  - unfold Stateless.enter. split; [done|]. split; [done|]. split; [done|]. simpl.
    intros rq c [[_ Hc] | [_ <-]]%lookup_snoc_Some; [by eapply Hr|done].
  - unfold Stateless.connect_settles.
    destruct (Stateless.calls st !! rq) as [[[[t s]|] [] b r cl]|] eqn:Hc;
      try (by split; [|split; [|split]]).
    assert (Hrq : sessionHeader r = None) by (by apply (Hr rq _ Hc)).
    destruct rej.
    + split; [done|]. split; [done|]. split; [done|]. simpl.
      intros rq' c' [(<- & <- & _) | [_ Hc']]%list_lookup_insert_Some;
        simpl; rewrite ?handler_catch_header; eauto.
    + pose proof (stateless_handle_facts t b (Stateless.world st))
        as (_ & Hm1 & Hi1 & Hs1).
      cbn [Stateless.world Stateless.calls].
      split; [by rewrite Hm1|]. split; [by rewrite Hi1|]. split.
      * intros t'. by rewrite Hs1.
      * intros rq' c' [(<- & <- & _) | [_ Hc']]%list_lookup_insert_Some; eauto.
  - unfold Stateless.handle_settles.
    destruct (Stateless.calls st !! rq) as [[[[t s]|] [] b r cl]|] eqn:Hc;
      try (by split; [|split; [|split]]).
    assert (Hrq : sessionHeader r = None) by (by apply (Hr rq _ Hc)).
    split; [done|]. split; [done|]. split; [done|]. simpl.
    intros rq' c' [(<- & <- & _) | [_ Hc']]%list_lookup_insert_Some; [|eauto].
    simpl. rewrite Hs.
    destruct (x_throws x); [rewrite handler_catch_header|];
      by apply transport_respond_no_header.
  - unfold Stateless.request_close.
    destruct (Stateless.calls st !! rq) as [[l p b r []]|] eqn:Hc;
      try (by split; [|split; [|split]]).
    assert (Hrq : sessionHeader r = None) by (by apply (Hr rq _ Hc)).
    destruct l as [[t s]|].
    + pose proof (stateless_close_facts t o (Stateless.world st))
        as (_ & Hm1 & Hi1 & Hs1).
      destruct (transport_close Stateless.hooks t o (Stateless.world st)) as [w1 rej].
      simpl in Hm1, Hi1, Hs1. simpl.
      split; [by rewrite Hm1|]. split; [by rewrite Hi1|]. split.
      * intros t'. by rewrite Hs1.
      * intros rq' c' [(<- & <- & _) | [_ Hc']]%list_lookup_insert_Some; eauto.
    + split; [done|]. split; [done|]. split; [done|]. simpl.
      intros rq' c' [(<- & <- & _) | [_ Hc']]%list_lookup_insert_Some; eauto.
Qed.

Lemma stateless_sessionless_run evs :
  stateless_sessionless (Stateless.run Stateless.start evs).
Proof.
  assert (H : ∀ st, stateless_sessionless st →
              stateless_sessionless (Stateless.run st evs)).
  { induction evs as [|ev evs IH]; intros st Hst; [done|].
    change (Stateless.run st (ev :: evs))
      with (Stateless.run (Stateless.step st ev) evs).
    by apply IH, stateless_sessionless_step. }
  apply H. split; [done|]. split; [done|]. split; [done|].
  intros rq c Hc. simpl in Hc. by rewrite lookup_nil in Hc.
Qed.

(** X12.  [createStatelessMcpHandler] keeps no session.  In every state
    the handler reaches, whatever the requests and the order in which their
    pieces run: no table holds a transport, no identifier was generated, no
    transport carries a session identifier, and no reply carries an
    [mcp-session-id] header. *)
Theorem stateless_never_a_session evs :
  let st := Stateless.run Stateless.start evs in
  transportMap (Stateless.world st) = ∅
  ∧ issued (Stateless.world st) = 0
  ∧ (∀ t, sessionId_of (Stateless.world st) t = None)
  ∧ (∀ rq c, Stateless.calls st !! rq = Some c →
       sessionHeader (Stateless.reply c) = None).
Proof. exact (stateless_sessionless_run evs). Qed.

Lemma stateless_private_start : stateless_private Stateless.start.
Proof.
  split.
  { intros rq1 rq2 c1 c2 t s1 s2 Hc. simpl in Hc. by rewrite lookup_nil in Hc. }
  split.
  { intros rq c t s Hc. simpl in Hc. by rewrite lookup_nil in Hc. }
  split.
  { intros t Ht. simpl in Ht. by apply elem_of_nil in Ht. }
  split.
  { intros rq c t s Hc. simpl in Hc. by rewrite lookup_nil in Hc. }
  split.
  { intros rq c Hc. simpl in Hc. by rewrite lookup_nil in Hc. }
  simpl. apply NoDup_nil_2.
Qed.

(** A piece of the handler that leaves the log of handed requests as it is
    and replaces one call by a call with the same listener. *)
Lemma stateless_private_update st w' slog' rq c c' :
  stateless_private st →
  Stateless.calls st !! rq = Some c →
  Stateless.listener c' = Stateless.listener c →
  length (heap w') = length (heap (Stateless.world st)) →
  handleLog w' = handleLog (Stateless.world st) →
  (Stateless.phase c' = Stateless.AwaitConnect →
   Stateless.phase c = Stateless.AwaitConnect) →
  (Stateless.phase c' ≠ Stateless.Done →
   Stateless.phase c ≠ Stateless.Done ∧ Stateless.reply c' = Stateless.reply c) →
  stateless_private
    (Stateless.mkState w' slog' (<[rq := c']> (Stateless.calls st))).
Proof.
  intros (I1 & I2 & I3 & I4 & I5 & I6) Hc Hl Hlen Hlog Hpc Hph.
  assert (Horig : ∀ rq0 c0, <[rq := c']> (Stateless.calls st) !! rq0 = Some c0 →
            ∃ c1, Stateless.calls st !! rq0 = Some c1
                  ∧ Stateless.listener c1 = Stateless.listener c0
                  ∧ (Stateless.phase c0 = Stateless.AwaitConnect →
                     Stateless.phase c1 = Stateless.AwaitConnect)
                  ∧ (Stateless.phase c0 ≠ Stateless.Done →
                     Stateless.phase c1 ≠ Stateless.Done
                     ∧ Stateless.reply c0 = Stateless.reply c1)).
  { intros rq0 c0 [(<- & <- & _) | [_ Hc0]]%list_lookup_insert_Some.
    - exists c. done.
    - exists c0. done. }
  split; [|split; [|split; [|split; [|split]]]]; simpl.
  - intros rq1 rq2 c1 c2 t s1 s2 Hc1 Hc2 Hl1 Hl2.
    destruct (Horig _ _ Hc1) as (c1' & Hc1' & Hl1' & _).
    destruct (Horig _ _ Hc2) as (c2' & Hc2' & Hl2' & _).
    rewrite <- Hl1' in Hl1. rewrite <- Hl2' in Hl2. by eapply I1.
  - intros rq0 c0 t s Hc0 Hl0. destruct (Horig _ _ Hc0) as (c1 & Hc1 & Hl1 & _).
    rewrite <- Hl1 in Hl0. rewrite Hlen. by eapply I2.
  - intros t. rewrite Hlog, Hlen. apply I3.
  - intros rq0 c0 t s Hc0 Hl0 Hp0.
    destruct (Horig _ _ Hc0) as (c1 & Hc1 & Hl1 & Hp1 & _).
    rewrite <- Hl1 in Hl0. rewrite Hlog. eapply I4; eauto.
  - intros rq0 c0 Hc0 Hp0.
    destruct (Horig _ _ Hc0) as (c1 & Hc1 & _ & _ & Hp1).
    destruct (Hp1 Hp0) as [Hp1' ->]. by eapply I5.
  - by rewrite Hlog.
Qed.

Lemma stateless_private_step st ev :
  stateless_private st → stateless_private (Stateless.step st ev).
Proof.
  intros Hinv. destruct ev as [b [server|] | rq rej | rq x | rq o]; simpl.
  - destruct Hinv as (I1 & I2 & I3 & I4 & I5 & I6).
    unfold Stateless.enter, new_transport, stateless_private. simpl.
    split; [|split; [|split; [|split; [|split; [|done]]]]].
    + intros rq1 rq2 c1 c2 t s1 s2 [[_ Hc1] | [-> <-]]%lookup_snoc_Some
        [[_ Hc2] | [-> <-]]%lookup_snoc_Some Hl1 Hl2.
      * by eapply I1.
      * simpl in Hl2. injection Hl2 as <- <-.
        pose proof (I2 _ _ _ _ Hc1 Hl1). lia.
      * simpl in Hl1. injection Hl1 as <- <-.
        pose proof (I2 _ _ _ _ Hc2 Hl2). lia.
      * done.
    + intros rq c t s [[_ Hc] | [_ <-]]%lookup_snoc_Some Hl; rewrite length_app; simpl.
      * pose proof (I2 _ _ _ _ Hc Hl). lia.
      * simpl in Hl. injection Hl as <- <-. lia.
    + intros t Ht. rewrite length_app. simpl. apply I3 in Ht. lia.
    + intros rq c t s [[_ Hc] | [_ <-]]%lookup_snoc_Some Hl Hp; [by eapply I4|].
      simpl in Hl. injection Hl as <- <-. intros Hin%I3. lia.
    + intros rq c [[_ Hc] | [_ <-]]%lookup_snoc_Some Hp; [by eapply I5|done].
  - destruct Hinv as (I1 & I2 & I3 & I4 & I5 & I6).
    unfold Stateless.enter, stateless_private. simpl.
    split; [|split; [|split; [done|split; [|split; [|done]]]]].
    + intros rq1 rq2 c1 c2 t s1 s2 [[_ Hc1] | [_ <-]]%lookup_snoc_Some
        [[_ Hc2] | [_ <-]]%lookup_snoc_Some Hl1 Hl2; try done. by eapply I1.
    + intros rq c t s [[_ Hc] | [_ <-]]%lookup_snoc_Some Hl; [by eapply I2|done].
    + intros rq c t s [[_ Hc] | [_ <-]]%lookup_snoc_Some Hl; [by eapply I4|done].
    + intros rq c [[_ Hc] | [_ <-]]%lookup_snoc_Some Hp; [by eapply I5|done].
  - unfold Stateless.connect_settles.
    destruct (Stateless.calls st !! rq) as [[[[t s]|] [] b r cl]|] eqn:Hc; try done.
    destruct rej.
    + unfold Stateless.set_call.
      eapply stateless_private_update; [done|exact Hc|done|done|done| |]; simpl; done.
    + destruct Hinv as (I1 & I2 & I3 & I4 & I5 & I6).
      pose proof (stateless_handle_facts t b (Stateless.world st)) as (Hlog & _).
      pose proof (stateless_handle_world t b (Stateless.world st)) as (Hlen & _).
      set (w1 := transport_receive Stateless.hooks None t POST (Some b)
                   (Stateless.world st)) in *.
      pose proof (I2 _ _ _ _ Hc eq_refl) as Hlt.
      pose proof (I4 _ _ _ _ Hc eq_refl eq_refl) as Hnew.
      pose proof (I5 _ _ Hc) as Hfresh.
      split; [|split; [|split; [|split; [|split]]]]; simpl.
      * intros rq1 rq2 c1 c2 t0 s1 s2
          [(<- & <- & _) | [Hne1 Hc1]]%list_lookup_insert_Some
          [(<- & <- & _) | [Hne2 Hc2]]%list_lookup_insert_Some Hl1 Hl2.
        -- done.
        -- simpl in Hl1. injection Hl1 as <- <-. by eapply (I1 rq rq2).
        -- simpl in Hl2. injection Hl2 as <- <-. by eapply (I1 rq1 rq).
        -- by eapply I1.
      * intros rq0 c0 t0 s0 [(<- & <- & _) | [_ Hc0]]%list_lookup_insert_Some Hl0;
          rewrite Hlen.
        -- simpl in Hl0. by injection Hl0 as <- <-.
        -- by eapply I2.
      * intros t0. rewrite Hlog, Hlen.
        intros [->|Hin]%elem_of_cons; [done|by apply I3].
      * intros rq0 c0 t0 s0 [(<- & <- & _) | [Hne Hc0]]%list_lookup_insert_Some
          Hl0 Hp0; [done|].
        rewrite Hlog. intros [->|Hin]%elem_of_cons.
        -- apply Hne. by eapply (I1 rq rq0).
        -- by eapply I4.
      * intros rq0 c0 [(<- & <- & _) | [Hne Hc0]]%list_lookup_insert_Some Hp0.
        -- simpl. apply Hfresh. done.
        -- by eapply I5.
      * rewrite Hlog. by apply NoDup_cons.
  - unfold Stateless.handle_settles.
    destruct (Stateless.calls st !! rq) as [[[[t s]|] [] b r cl]|] eqn:Hc; try done.
    unfold Stateless.set_call.
    eapply stateless_private_update; [done|exact Hc|done|done|done| |]; simpl; done.
  - unfold Stateless.request_close.
    destruct (Stateless.calls st !! rq) as [[l p b r []]|] eqn:Hc; try done.
    destruct l as [[t s]|].
    + pose proof (stateless_close_facts t o (Stateless.world st)) as (Hlog & _).
      pose proof (stateless_close_world t o (Stateless.world st)) as (Hlen & _).
      destruct (transport_close Stateless.hooks t o (Stateless.world st)) as [w1 rej].
      simpl in Hlog, Hlen.
      eapply stateless_private_update; [done|exact Hc|done|done|done| |]; done.
    + unfold Stateless.set_call.
      eapply stateless_private_update; [done|exact Hc|done|done|done| |]; done.
Qed.

Lemma stateless_private_run evs :
  ∀ st, stateless_private st → stateless_private (Stateless.run st evs).
Proof.
  induction evs as [|ev evs IH]; intros st Hinv; [done|].
  change (Stateless.run st (ev :: evs)) with (Stateless.run (Stateless.step st ev) evs).
  by apply IH, stateless_private_step.
Qed.

(** X13.  The handler of [createStatelessMcpHandler] constructs a
    transport of its own for every request: in every state the handler
    reaches, two different requests have different transports, whatever
    [getServer] returns for them (it may return one server for both). *)
Theorem stateless_requests_share_no_transport evs rq1 rq2 c1 c2 t1 s1 t2 s2 :
  let st := Stateless.run Stateless.start evs in
  Stateless.calls st !! rq1 = Some c1 → Stateless.calls st !! rq2 = Some c2 →
  Stateless.listener c1 = Some (t1, s1) → Stateless.listener c2 = Some (t2, s2) →
  rq1 ≠ rq2 → t1 ≠ t2.
Proof.
  intros st Hc1 Hc2 Hl1 Hl2 Hne.
  destruct (stateless_private_run evs _ stateless_private_start) as (I1 & _).
  fold st in I1. intros <-. apply Hne. by eapply I1.
Qed.

Lemma stateless_requests_share_no_transport_witness :
  let st := Stateless.run Stateless.start
              [Stateless.Enter InitializeMessage (Some 7);
               Stateless.Enter OtherMessage (Some 7)] in
  Stateless.listener <$> Stateless.calls st !! 0 = Some (Some (0, 7))
  ∧ Stateless.listener <$> Stateless.calls st !! 1 = Some (Some (1, 7))
  ∧ 0 ≠ 1.
Proof.
  split; [reflexivity|]. split; [reflexivity|].
  apply (stateless_requests_share_no_transport
           [Stateless.Enter InitializeMessage (Some 7);
            Stateless.Enter OtherMessage (Some 7)]
           0 1
           (Stateless.mkCall (Some (0, 7)) Stateless.AwaitConnect InitializeMessage
              fresh_reply false)
           (Stateless.mkCall (Some (1, 7)) Stateless.AwaitConnect OtherMessage
              fresh_reply false) 0 7 1 7); [reflexivity..|lia].
Defined.


Lemma stateless_unhandled_step rq t st ev :
  stateless_private st → stateless_unhandled rq t st →
  stateless_unhandled rq t (Stateless.step st ev).
Proof.
  intros (I1 & I2 & I3 & I4 & I5 & I6) (Hnot & c & s & Hc & Hl & Hp & Hr).
  assert (Hlt : rq < length (Stateless.calls st)) by (by eapply lookup_lt_Some).
  destruct ev as [b [server|] | rq' rej | rq' x | rq' o]; simpl.
  - unfold Stateless.enter, new_transport. split; [done|]. exists c, s. simpl.
    by rewrite lookup_app_l.
  - unfold Stateless.enter. split; [done|]. exists c, s. simpl. by rewrite lookup_app_l.
  - unfold Stateless.connect_settles.
    destruct (Stateless.calls st !! rq') as [[[[t' s']|] [] b' r' cl']|] eqn:Hc';
      try (split; [done|]; by exists c, s).
    assert (Hne : rq' ≠ rq) by (intros ->; rewrite Hc in Hc'; by injection Hc' as ->).
    destruct rej.
    + split; [done|]. exists c, s. simpl. by rewrite list_lookup_insert_ne.
    + pose proof (stateless_handle_facts t' b' (Stateless.world st)) as (Hlog & _).
      split; cbn [Stateless.world Stateless.calls].
      * rewrite Hlog. intros [->|Hin]%elem_of_cons; [|done].
        apply Hne. by eapply (I1 rq' rq).
      * exists c, s. by rewrite list_lookup_insert_ne.
  - unfold Stateless.handle_settles.
    destruct (Stateless.calls st !! rq') as [[[[t' s']|] [] b' r' cl']|] eqn:Hc';
      try (split; [done|]; by exists c, s).
    assert (Hne : rq' ≠ rq) by (intros ->; rewrite Hc in Hc'; by injection Hc' as ->).
    split; [done|]. exists c, s. simpl. by rewrite list_lookup_insert_ne.
  - unfold Stateless.request_close.
    destruct (Stateless.calls st !! rq') as [[l' p' b' r' []]|] eqn:Hc';
      try (split; [done|]; by exists c, s).
    assert (Hcalls : ∀ w1 slog,
      ∃ c0 s0, Stateless.calls
                 (Stateless.mkState w1 slog
                    (<[rq' := Stateless.mkCall l' p' b' r' true]> (Stateless.calls st)))
                 !! rq = Some c0
               ∧ Stateless.listener c0 = Some (t, s0)
               ∧ Stateless.phase c0 = Stateless.Done
               ∧ Stateless.reply c0 = reply_send 500 internal_error fresh_reply).
    { intros w1 slog. simpl. destruct (decide (rq' = rq)) as [->|Hne].
      - rewrite Hc in Hc'. injection Hc' as ->. simpl in *.
        eexists _, s. rewrite list_lookup_insert_eq by done. done.
      - exists c, s. by rewrite list_lookup_insert_ne. }
    destruct l' as [[t' s']|].
    + pose proof (stateless_close_facts t' o (Stateless.world st)) as (Hlog & _).
      destruct (transport_close Stateless.hooks t' o (Stateless.world st)) as [w1 rej].
      simpl in Hlog. split; [simpl; by rewrite Hlog|]. apply Hcalls.
    + split; [done|]. apply Hcalls.
Qed.

Lemma stateless_unhandled_run rq t evs :
  ∀ st, stateless_private st → stateless_unhandled rq t st →
  stateless_unhandled rq t (Stateless.run st evs).
Proof.
  induction evs as [|ev evs IH]; intros st Hinv Hun; [done|].
  change (Stateless.run st (ev :: evs)) with (Stateless.run (Stateless.step st ev) evs).
  apply IH; [by apply stateless_private_step|by apply stateless_unhandled_step].
Qed.

(** X15.  When [server.connect] rejects, the handler of
    [createStatelessMcpHandler] answers with status 500 and the envelope of
    code -32603, and the transport it constructed for the request is never
    handed the request, whatever happens afterwards. *)
Theorem stateless_rejected_connect evs rq c t s evs' :
  let st := Stateless.run Stateless.start evs in
  Stateless.calls st !! rq = Some c →
  Stateless.phase c = Stateless.AwaitConnect →
  Stateless.listener c = Some (t, s) →
  let st' := Stateless.run (Stateless.step st (Stateless.ConnectSettles rq true)) evs' in
  (t ∉ handleLog (Stateless.world st'))
  ∧ ∃ c', Stateless.calls st' !! rq = Some c'
          ∧ Stateless.phase c' = Stateless.Done
          ∧ Stateless.reply c'
            = mkReply (Some 500) false None
                (JsonRpcError (-32603) "Internal server error") 500 true false.
Proof.
  intros st Hc Hp Hl st'.
  pose proof (stateless_private_run evs _ stateless_private_start) as Hinv.
  fold st in Hinv.
  assert (Hun : stateless_unhandled rq t
                  (Stateless.step st (Stateless.ConnectSettles rq true))).
  { destruct Hinv as (_ & _ & _ & I4 & I5 & _).
    pose proof (I4 rq c t s Hc Hl Hp) as Hnot.
    assert (Hr : Stateless.reply c = fresh_reply) by (apply (I5 rq c Hc); congruence).
    simpl. unfold Stateless.connect_settles. rewrite Hc.
    destruct c as [l p b r cl]. simpl in Hp, Hl, Hr. subst p l r.
    split; [done|]. eexists _, s. simpl.
    rewrite list_lookup_insert_eq by (by eapply lookup_lt_Some). done. }
  destruct (stateless_unhandled_run rq t evs' _
              (stateless_private_step st _ Hinv) Hun)
    as (Hnot & c' & s' & Hc' & _ & Hp' & Hr').
  split; [done|]. exists c'. done.
Qed.

Lemma stateless_rejected_connect_witness :
  let st' := Stateless.run
               (Stateless.step
                  (Stateless.run Stateless.start
                     [Stateless.Enter InitializeMessage (Some 0)])
                  (Stateless.ConnectSettles 0 true))
               [Stateless.HandleSettles 0 sample_exchange;
                Stateless.RequestClose 0 CloseOk] in
  (0 ∉ handleLog (Stateless.world st'))
  ∧ ∃ c', Stateless.calls st' !! 0 = Some c'
          ∧ Stateless.phase c' = Stateless.Done
          ∧ Stateless.reply c'
            = mkReply (Some 500) false None
                (JsonRpcError (-32603) "Internal server error") 500 true false.
Proof.
  apply (stateless_rejected_connect [Stateless.Enter InitializeMessage (Some 0)] 0
           (Stateless.mkCall (Some (0, 0)) Stateless.AwaitConnect InitializeMessage
              fresh_reply false) 0 0
           [Stateless.HandleSettles 0 sample_exchange; Stateless.RequestClose 0 CloseOk]);
    reflexivity.
Defined.

(** X16.  The end of the handler of [createStatelessMcpHandler].  When
    [transport.handleRequest] settles, the handler has ended.  If the
    transport returned, the reply is hijacked and holds what the transport
    wrote, with no body from the handler.  The handler puts its own body,
    the envelope of code -32603, in the reply exactly when the transport
    throws before it has written or ended anything.  In no case does the
    reply carry a session header. *)
Theorem stateless_reply_after_handle evs rq c t s x :
  let st := Stateless.run Stateless.start evs in
  Stateless.calls st !! rq = Some c →
  Stateless.phase c = Stateless.AwaitHandle →
  Stateless.listener c = Some (t, s) →
  ∃ c', Stateless.calls (Stateless.step st (Stateless.HandleSettles rq x)) !! rq
        = Some c'
    ∧ Stateless.phase c' = Stateless.Done
    ∧ sessionHeader (Stateless.reply c') = None
    ∧ (x_throws x = false →
       hijacked (Stateless.reply c') = true
       ∧ payload (Stateless.reply c') = NoPayload
       ∧ statusLine (Stateless.reply c')
         = if x_ends x then Some (default 200 (x_status x)) else x_status x)
    ∧ (payload (Stateless.reply c') = JsonRpcError (-32603) "Internal server error" ↔
         x_throws x = true ∧ x_status x = None ∧ x_ends x = false).
Proof.
  intros st Hc Hp Hl.
  destruct (stateless_private_run evs _ stateless_private_start)
    as (_ & _ & _ & _ & I5 & _).
  destruct (stateless_sessionless_run evs) as (_ & _ & Hs & _).
  fold st in I5, Hs.
  assert (Hr : Stateless.reply c = fresh_reply) by (apply (I5 rq c Hc); congruence).
  destruct c as [l p b r cl]. simpl in Hp, Hl, Hr. subst l p r.
  simpl. unfold Stateless.handle_settles. rewrite Hc, Hs.
  eexists. split.
  { simpl. apply list_lookup_insert_eq. by eapply lookup_lt_Some. }
  simpl. split; [done|].
  unfold Stateless.handler_catch, reply_hijack, sent, transport_respond,
    raw_writeHead, raw_end, reply_send.
  destruct x as [[st0|] str [] []]; simpl;
    (split; [done|split];
     [ intros Ht; try discriminate Ht; done
     | split; [intros Hpay; try discriminate Hpay; done
              |intros (H1 & H2 & H3); try discriminate; done] ]).
Qed.

Lemma stateless_reply_after_handle_witness :
  let st := Stateless.run Stateless.start
              [Stateless.Enter InitializeMessage (Some 0);
               Stateless.ConnectSettles 0 false] in
  ∃ c', Stateless.calls (Stateless.step st (Stateless.HandleSettles 0 sample_exchange))
          !! 0 = Some c'
    ∧ Stateless.phase c' = Stateless.Done
    ∧ sessionHeader (Stateless.reply c') = None
    ∧ (x_throws sample_exchange = false →
       hijacked (Stateless.reply c') = true
       ∧ payload (Stateless.reply c') = NoPayload
       ∧ statusLine (Stateless.reply c')
         = if x_ends sample_exchange then Some (default 200 (x_status sample_exchange))
           else x_status sample_exchange)
    ∧ (payload (Stateless.reply c') = JsonRpcError (-32603) "Internal server error" ↔
         x_throws sample_exchange = true ∧ x_status sample_exchange = None
         ∧ x_ends sample_exchange = false).
Proof.
  apply (stateless_reply_after_handle
           [Stateless.Enter InitializeMessage (Some 0); Stateless.ConnectSettles 0 false] 0
           (Stateless.mkCall (Some (0, 0)) Stateless.AwaitHandle InitializeMessage
              fresh_reply false) 0 0 sample_exchange); reflexivity.
Defined.

(** X17.  An initialization that fails before the transport is reached.
    When [serverFactory] throws or [server.connect] rejects, the POST
    handler of [registerMcpServer] answers with status 500 and the envelope
    of code -32603.  The transport it had constructed stays uninitialized:
    no identifier was generated, no key was added, nothing was handed to it,
    and in no later world, whatever is requested, does any header lead to
    it. *)
Theorem server_failed_initialization gen evs h b e evs' hdr :
  truthy h = false → isInitializeRequest b = true →
  Server.factory_throws e || Server.connect_throws e = true →
  let w := Server.run gen initial evs in
  let t := length (heap w) in
  let w' := (Server.post_handler gen h b e w).1 in
  (Server.post_handler gen h b e w).2
    = mkReply (Some 500) false None
        (JsonRpcError (-32603) "Internal server error") 500 true false
  ∧ transportMap w' = transportMap w
  ∧ issued w' = issued w
  ∧ handleLog w' = handleLog w
  ∧ state_of w' t = Some Uninitialized
  ∧ lookup_session hdr (Server.run gen w' evs') ≠ Own t.
Proof.
  intros Hh Hb He w t w'.
  destruct (server_reachable_wf gen evs) as [Hwf Htr]. fold w in Hwf, Htr.
  destruct (server_handle_wf gen (Server.Post h b e) w Hwf Htr) as [Hwf' Htr'].
  change (Server.handle _ _ _).1 with w' in Hwf', Htr'.
  assert (Hw' : w' = (new_transport w).2).
  { unfold w'. rewrite server_post_world by done.
    by rewrite (lookup_session_falsy _ _ Hh), Hh, Hb, He. }
  destruct (new_transport_new w) as (_ & _ & Hst & Hmap & Hiss).
  destruct (new_transport_logs w) as (Hlen & Hlog & _).
  rewrite <- Hw' in Hst, Hmap, Hiss, Hlen, Hlog.
  split.
  { unfold Server.post_handler.
    rewrite (lookup_session_falsy _ _ Hh), Hh, Hb. cbn [negb andb].
    unfold new_transport. by rewrite He. }
  split; [done|]. split; [done|]. split; [done|]. split; [done|].
  intros (k & _ & _ & Hk)%lookup_session_Own.
  apply (server_run_unbound gen t evs' w' Hwf' Htr') in Hk; [done| |].
  - rewrite Hlen. unfold t. lia.
  - intros k' Hk'. rewrite Hmap in Hk'. destruct (Hwf k' t Hk') as [Hs' _].
    apply sessionId_of_Some_lt in Hs'. unfold t in Hs'. lia.
Qed.

Lemma server_failed_initialization_witness :
  let w := Server.run (Some sample_generator) initial [sample_init] in
  let w' := (Server.post_handler (Some sample_generator) None InitializeMessage
               (Server.mkPostEnv true false sample_exchange) w).1 in
  (Server.post_handler (Some sample_generator) None InitializeMessage
     (Server.mkPostEnv true false sample_exchange) w).2
    = mkReply (Some 500) false None
        (JsonRpcError (-32603) "Internal server error") 500 true false
  ∧ transportMap w' = transportMap w
  ∧ issued w' = issued w
  ∧ handleLog w' = handleLog w
  ∧ state_of w' 1 = Some Uninitialized
  ∧ lookup_session (Some "session-1")
      (Server.run (Some sample_generator) w' [sample_init]) ≠ Own 1.
Proof.
  apply (server_failed_initialization (Some sample_generator) [sample_init] None
           InitializeMessage (Server.mkPostEnv true false sample_exchange)
           [sample_init] (Some "session-1")); reflexivity.
Defined.

(** ** Shutdown, call by call *)

Lemma omap_agree {A B} (f g : A → option B) (l : list A) :
  (∀ x, x ∈ l → f x = g x) → omap f l = omap g l.
Proof.
  induction l as [|x l IH]; intros H; [done|].
  change (omap f (x :: l))
    with (match f x with Some y => y :: omap f l | None => omap f l end).
  change (omap g (x :: l))
    with (match g x with Some y => y :: omap g l | None => omap g l end).
  rewrite (H x) by apply list_elem_of_here.
  rewrite IH; [done|]. intros y Hy. by apply H, list_elem_of_further.
Qed.

Lemma omap_keys_length (m : gmap string nat) (l : list string) :
  (∀ k, k ∈ l → is_Some (m !! k)) → length (omap (λ k, m !! k) l) = length l.
Proof.
  induction l as [|k l IH]; intros H; [done|].
  change (omap (λ k, m !! k) (k :: l))
    with (match m !! k with
          | Some y => y :: omap (λ k, m !! k) l
          | None => omap (λ k, m !! k) l
          end).
  destruct (H k (list_elem_of_here _ _)) as [t ->]. simpl.
  rewrite IH; [done|]. intros k' Hin. by apply H, list_elem_of_further.
Qed.

Lemma shutdown_loop_closeLog faults keys :
  ∀ w, table_wf w → keys_truthy w → NoDup keys →
  closeLog (Server.shutdown_loop faults keys w)
  = (reverse (omap (λ k, transportMap w !! k) keys) ++ closeLog w)%list.
Proof.
  induction keys as [|k rest IH]; intros w Hwf Htr Hnd; [done|].
  apply NoDup_cons in Hnd as [Hnotin Hnd].
  rewrite shutdown_loop_cons.
  destruct (shutdown_visit_facts faults k w Hwf Htr)
    as (Hwf1 & Htr1 & Hmap1 & Hlog1 & _).
  rewrite IH by done. rewrite Hlog1.
  rewrite (omap_agree (λ k', transportMap (shutdown_visit faults k w) !! k')
             (λ k', transportMap w !! k') rest).
  - change (omap (λ k', transportMap w !! k') (k :: rest))
      with (match transportMap w !! k with
            | Some t => t :: omap (λ k', transportMap w !! k') rest
            | None => omap (λ k', transportMap w !! k') rest
            end).
    destruct (transportMap w !! k) as [t|]; [|done].
    rewrite reverse_cons, <- app_assoc. done.
  - intros k' Hin. rewrite Hmap1. destruct (fails_early (faults k)); [done|].
    apply lookup_delete_ne. by intros ->.
Qed.

(** X18.  Let the generator never return ["__proto__"].  In whatever order
    [for ... in] enumerates the keys of the table, the [onClose] hook of
    [registerMcpServer] calls [close()] once on the transport of each entry,
    in that order, whether the calls succeed or fail, and makes no other
    call: the number of calls is the number of entries. *)
Theorem shutdown_closes_each_once gen evs faults keys :
  never_proto gen →
  NoDup keys →
  (∀ k, k ∈ keys ↔ is_Some (transportMap (Server.run gen initial evs) !! k)) →
  let w := Server.run gen initial evs in
  let w' := Server.shutdown_loop faults keys w in
  closeLog w' = (reverse (omap (λ k, transportMap w !! k) keys) ++ closeLog w)%list
  ∧ length (closeLog w') = size (transportMap w) + length (closeLog w).
Proof.
  intros _ Hnd Hkeys w w'.
  destruct (server_reachable_wf gen evs) as [Hwf Htr]. fold w in Hwf, Htr, Hkeys.
  assert (Hlog : closeLog w'
                 = (reverse (omap (λ k, transportMap w !! k) keys) ++ closeLog w)%list).
  { by apply shutdown_loop_closeLog. }
  split; [done|].
  assert (Hperm : keys ≡ₚ (map_to_list (transportMap w)).*1).
  { apply NoDup_Permutation; [done|apply NoDup_fst_map_to_list|].
    intros k. rewrite Hkeys, list_elem_of_fmap. split.
    - intros [t Hk]. exists (k, t). split; [done|]. by apply elem_of_map_to_list.
    - intros ([k' t] & -> & Hin). apply elem_of_map_to_list in Hin. eauto. }
  rewrite Hlog, length_app, length_reverse, omap_keys_length.
  - by rewrite Hperm, length_fmap, length_map_to_list.
  - intros k Hin. by apply Hkeys.
Qed.

(** Two sessions; the loop meets ["session-1"] first and its close fails:
    [close()] is called on transport 1, then on transport 0. *)
Lemma shutdown_closes_each_once_witness :
  let w := Server.run (Some sample_generator) initial [sample_init; sample_init] in
  let w' := Server.shutdown_loop (fails_for "session-1") ["session-1"; "session-0"] w in
  closeLog w'
  = (reverse (omap (λ k, transportMap w !! k) ["session-1"; "session-0"])
       ++ closeLog w)%list
  ∧ length (closeLog w') = size (transportMap w) + length (closeLog w).
Proof.
  apply (shutdown_closes_each_once (Some sample_generator) [sample_init; sample_init]
           (fails_for "session-1") ["session-1"; "session-0"]).
  - exact sample_generator_never_proto.
  - exact two_sessions_keys_NoDup.
  - exact two_sessions_keys.
Defined.
